(** * Fair elimination tournament engine of the giveaway bot (src/index.js)

    Shallow embedding of the parts of [src/index.js] that decide a giveaway:
    [hmacFloat], the join task pushed on the [JoinQueue], the seeds handler and
    [runBattleRoyale]; and of the code around them: the dispatch of
    [interactionCreate], the class [JoinQueue], the participants field of the
    embeds, the update interval and the web API of the setups.

    JavaScript numbers are IEEE-754 binary64 values; they are modelled by the
    rationals they denote, every arithmetic operation being the exact
    operation followed by rounding to nearest, ties to even ([Binary64.rnd]).
    Entry objects live in the ledger [gw.entries] and are never removed from
    it, so a reference to an entry object is modelled by its position in the
    ledger. *)

From Stdlib Require Import ZArith QArith Qround Qreduction Qcanon String Ascii List Lia Lqa.
From Stdlib Require Import Permutation Sorted DecimalString Floats.
From stdpp Require Import gmap strings list.
From Equations Require Import Equations.
Import ListNotations.

Open Scope Z_scope.

(** ** IEEE-754 binary64 arithmetic on the values the program computes *)

Module Binary64.

Definition prec : Z := 53.

(** [a / b / 2^e] as a fraction of integers. *)
Definition scaled (a b e : Z) : Z * Z :=
  (a * 2 ^ Z.max 0 (- e), b * 2 ^ Z.max 0 e).

(** The exponent [e] of the last mantissa bit of [a / b]:
    [2^52 <= a / b / 2^e < 2^53]. *)
Definition expo (a b : Z) : Z :=
  let e0 := Z.log2 a - Z.log2 b - prec in
  if 2 ^ prec <=? fst (scaled a b e0) / snd (scaled a b e0) then e0 + 1 else e0.

(** [n / d] rounded to the nearest integer, ties to even. *)
Definition nearest_even (n d : Z) : Z :=
  let m := n / d in
  let r := n mod d in
  if (d <? 2 * r) || ((d =? 2 * r) && Z.odd m) then m + 1 else m.

Definition of_mant (m e : Z) : Q :=
  Qred (Qmake (m * 2 ^ Z.max 0 e) (Z.to_pos (2 ^ Z.max 0 (- e)))).

Definition rnd_pos (a b : Z) : Q :=
  let e := expo a b in
  of_mant (nearest_even (fst (scaled a b e)) (snd (scaled a b e))) e.

(** Rounding of a rational to binary64.  The exponent range is not bounded:
    every value the program computes has a magnitude in [2^-52, 2^53), well
    inside the normal range of binary64. *)
Definition rnd (q : Q) : Q :=
  match Qnum q with
  | Z0 => 0%Q
  | Zpos a => rnd_pos (Zpos a) (Zpos (Qden q))
  | Zneg a => Qopp (rnd_pos (Zpos a) (Zpos (Qden q)))
  end.

(** A numeric literal of the source denotes the nearest double. *)
Definition lit (q : Q) : Q := rnd q.
Definition fmul (x y : Q) : Q := rnd (x * y).
Definition fsub (x y : Q) : Q := rnd (x - y).
Definition fdiv (x y : Q) : Q := rnd (x / y).
Definition of_nat (n : nat) : Q := rnd (inject_Z (Z.of_nat n)).

(** The value of one of Rocq's primitive binary64 floats, used to compare the
    model with the hardware arithmetic on samples. *)
Definition of_float (f : float) : option Q :=
  match Prim2SF f with
  | S754_zero _ => Some 0%Q
  | S754_finite s m e => Some (of_mant (if s then Zneg m else Zpos m) e)
  | _ => None
  end.

Definition agrees_with_hardware (c : float) (cq : Q) (n : nat) : bool :=
  match of_float (PrimFloat.mul (PrimFloat.of_uint63 (Uint63.of_Z (Z.of_nat n))) c) with
  | Some q => Qeq_bool q (fmul (of_nat n) cq)
  | None => false
  end.

End Binary64.

(** ** SHA-512 (FIPS 180-4) and HMAC (RFC 2104), as Node's [crypto] computes them *)

Module SHA512.

Definition mask (x : Z) : Z := x mod 2 ^ 64.
Definition add (x y : Z) : Z := mask (x + y).
Definition rotr (n x : Z) : Z := mask (Z.lor (Z.shiftr x n) (Z.shiftl x (64 - n))).
Definition shr (n x : Z) : Z := Z.shiftr x n.
Definition not64 (x : Z) : Z := 2 ^ 64 - 1 - x.

Definition Ch (x y z : Z) : Z := Z.lxor (Z.land x y) (Z.land (not64 x) z).
Definition Maj (x y z : Z) : Z :=
  Z.lxor (Z.lxor (Z.land x y) (Z.land x z)) (Z.land y z).
Definition Sigma0 (x : Z) : Z := Z.lxor (Z.lxor (rotr 28 x) (rotr 34 x)) (rotr 39 x).
Definition Sigma1 (x : Z) : Z := Z.lxor (Z.lxor (rotr 14 x) (rotr 18 x)) (rotr 41 x).
Definition sigma0 (x : Z) : Z := Z.lxor (Z.lxor (rotr 1 x) (rotr 8 x)) (shr 7 x).
Definition sigma1 (x : Z) : Z := Z.lxor (Z.lxor (rotr 19 x) (rotr 61 x)) (shr 6 x).

(** Integer [k]-th root, found bit by bit from the top. *)
Definition iroot (k : Z) (n : Z) (bits : nat) : Z :=
  fold_left
    (fun r b => let r' := r + 2 ^ Z.of_nat b in if r' ^ k <=? n then r' else r)
    (rev (seq 0 bits)) 0.

Definition is_prime (p : nat) : bool :=
  (2 <=? Z.of_nat p)
  && forallb (fun d => negb (Z.of_nat p mod Z.of_nat d =? 0)) (seq 2 (p - 2)).

Definition primes80 : list Z :=
  Eval vm_compute in map Z.of_nat (firstn 80 (filter is_prime (seq 2 420))).

(** Initial hash value: the first 64 bits of the fractional parts of the
    square roots of the first eight primes. *)
Definition H0 : list Z :=
  Eval vm_compute in map (fun p => mask (iroot 2 (p * 2 ^ 128) 70)) (firstn 8 primes80).

(** Round constants: the same for the cube roots of the first eighty primes. *)
Definition K : list Z :=
  Eval vm_compute in map (fun p => mask (iroot 3 (p * 2 ^ 192) 70)) primes80.

Record state := mkState
  { sa : Z; sb : Z; sc : Z; sd : Z; se : Z; sf : Z; sg : Z; sh : Z }.

Definition init : state :=
  match H0 with
  | [a; b; c; d; e; f; g; h] => mkState a b c d e f g h
  | _ => mkState 0 0 0 0 0 0 0 0
  end.

Definition round (s : state) (kw : Z * Z) : state :=
  let t1 :=
    add (add (add (add (sh s) (Sigma1 (se s))) (Ch (se s) (sf s) (sg s))) (fst kw)) (snd kw) in
  let t2 := add (Sigma0 (sa s)) (Maj (sa s) (sb s) (sc s)) in
  mkState (add t1 t2) (sa s) (sb s) (sc s) (add (sd s) t1) (se s) (sf s) (sg s).

(** Message schedule, most recent word first. *)
Fixpoint extend (n : nat) (w : list Z) : list Z :=
  match n with
  | O => w
  | S n' =>
      let x :=
        add (add (add (sigma1 (nth 1 w 0)) (nth 6 w 0)) (sigma0 (nth 14 w 0))) (nth 15 w 0) in
      extend n' (x :: w)
  end.

Definition schedule (block : list Z) : list Z := rev (extend 64 (rev block)).

Definition compress (s : state) (block : list Z) : state :=
  let t := fold_left round (combine K (schedule block)) s in
  mkState (add (sa s) (sa t)) (add (sb s) (sb t)) (add (sc s) (sc t)) (add (sd s) (sd t))
          (add (se s) (se t)) (add (sf s) (sf t)) (add (sg s) (sg t)) (add (sh s) (sh t)).

Definition be_bytes (n : nat) (x : Z) : list Z :=
  map (fun i => (x / 2 ^ (8 * Z.of_nat i)) mod 256) (rev (seq 0 n)).

Definition be_word (bs : list Z) : Z := fold_left (fun acc b => acc * 256 + b) bs 0.

Definition pad (msg : list Z) : list Z :=
  let len := Z.of_nat (length msg) in
  msg ++ [128] ++ repeat 0 (Z.to_nat ((- (len + 17)) mod 128)) ++ be_bytes 16 (8 * len).

Fixpoint chunks (fuel : nat) (n : nat) (l : list Z) : list (list Z) :=
  match fuel, l with
  | _, [] => []
  | O, _ => []
  | S f, _ => firstn n l :: chunks f n (skipn n l)
  end.

Definition words_of_block (b : list Z) : list Z := map be_word (chunks 16 8 b).

Definition hash_state (msg : list Z) : state :=
  let p := pad msg in
  fold_left compress (map words_of_block (chunks (length p) 128 p)) init.

Definition state_words (s : state) : list Z :=
  [sa s; sb s; sc s; sd s; se s; sf s; sg s; sh s].

Definition digest_of_state (s : state) : list Z := flat_map (be_bytes 8) (state_words s).

Definition digest (msg : list Z) : list Z := digest_of_state (hash_state msg).

End SHA512.

Module HMAC.

Definition block_size : nat := 128.

Definition key_block (key : list Z) : list Z :=
  let k := if (block_size <? length key)%nat then SHA512.digest key else key in
  k ++ repeat 0 (block_size - length k)%nat.

Definition hmac_state (key msg : list Z) : SHA512.state :=
  let k := key_block key in
  SHA512.hash_state
    (map (Z.lxor 92) k ++ SHA512.digest (map (Z.lxor 54) k ++ msg)).

End HMAC.

(** ** The JavaScript built-ins the program calls *)

Module JS.

(** A string is the sequence of its UTF-8 bytes, which is what [crypto]
    hashes. *)
Definition bytes_of_string (s : string) : list Z :=
  map (fun c => Z.of_N (N_of_ascii c)) (list_ascii_of_string s).

Definition hexdigit (n : Z) : ascii :=
  ascii_of_N (Z.to_N (if n <? 10 then 48 + n else 87 + n)).

Definition hex_of_word (w : Z) : list ascii :=
  map (fun i => hexdigit ((w / 16 ^ Z.of_nat i) mod 16)) (rev (seq 0 16)).

(** [digest('hex')] *)
Definition hex_of_state (s : SHA512.state) : list ascii :=
  flat_map hex_of_word (SHA512.state_words s).

(** [crypto.createHmac('sha512', key).update(message).digest('hex')] *)
Definition createHmac_sha512_hex (key message : string) : string :=
  string_of_list_ascii
    (hex_of_state (HMAC.hmac_state (bytes_of_string key) (bytes_of_string message))).

(** [s.slice(0, n)] on a string *)
Definition slice0 (n : nat) (s : string) : string :=
  string_of_list_ascii (firstn n (list_ascii_of_string s)).

Definition digit16 (c : ascii) : option Z :=
  let n := Z.of_N (N_of_ascii c) in
  if (48 <=? n) && (n <=? 57) then Some (n - 48)
  else if (97 <=? n) && (n <=? 102) then Some (n - 87)
  else if (65 <=? n) && (n <=? 70) then Some (n - 55)
  else None.

Definition is_space (c : ascii) : bool :=
  let n := Z.of_N (N_of_ascii c) in
  (n =? 32) || ((9 <=? n) && (n <=? 13)).

Fixpoint skip_spaces (l : list ascii) : list ascii :=
  match l with
  | c :: l' => if is_space c then skip_spaces l' else l
  | [] => []
  end.

(** The longest prefix of hexadecimal digits: its value and its length. *)
Fixpoint digits16 (l : list ascii) (acc : Z) (n : nat) : Z * nat :=
  match l with
  | c :: l' =>
      match digit16 c with
      | Some d => digits16 l' (16 * acc + d) (S n)
      | None => (acc, n)
      end
  | [] => (acc, n)
  end.

Definition strip_0x (l : list ascii) : list ascii :=
  match l with
  | "0"%char :: "x"%char :: l' => l'
  | "0"%char :: "X"%char :: l' => l'
  | _ => l
  end.

(** [parseInt(s, 16)]; [None] is NaN.  White space (ASCII) and a sign are
    skipped, then an optional [0x], then the longest run of digits is read;
    the mathematical value becomes a double. *)
Definition parseInt16 (s : string) : option Q :=
  let l := skip_spaces (list_ascii_of_string s) in
  let '(neg, l) :=
    match l with
    | "-"%char :: l' => (true, l')
    | "+"%char :: l' => (false, l')
    | _ => (false, l)
    end in
  match digits16 (strip_0x l) 0 0 with
  | (_, O) => None
  | (v, _) => Some (Binary64.rnd (inject_Z (if neg then - v else v)))
  end.

(** Decimal rendering of an array index in a template literal. *)
Definition string_of_index (i : nat) : string :=
  NilZero.string_of_uint (Nat.to_uint i).

Section Sort.
Context {A : Type}.
(** The comparator's result; [None] is NaN, which [sort] reads as [+0]. *)
Variable comparefn : A -> A -> option Q.

Definition sorts_after (x y : A) : bool :=
  match comparefn x y with
  | Some v => negb (Qle_bool v 0)
  | None => false
  end.

Fixpoint sort_insert (x : A) (l : list A) : list A :=
  match l with
  | [] => [x]
  | y :: l' => if sorts_after x y then y :: sort_insert x l' else x :: l
  end.

(** [Array.prototype.sort(comparefn)].  ECMAScript requires the sort to be
    stable; insertion from the right is, and for a comparator that is a
    consistent ordering every stable sort returns the same array. *)
Definition array_sort (l : list A) : list A := foldr sort_insert [] l.
End Sort.

End JS.

(** ** Data model *)

(** A row of [gw.entries]: [{id, userId, username}], to which [runBattleRoyale]
    adds the property [pfFloat] ([None] while the property is absent). *)
Record Entry := mkEntry
  { id : string; userId : string; username : string; pfFloat : option Q }.

Definition set_pfFloat (f : option Q) (e : Entry) : Entry :=
  mkEntry (id e) (userId e) (username e) f.

Module RoleEntry.
(** An element of [setup.roleEntries]: [{roleId, entries}].  An absent or
    empty [roleId] is the empty string, an absent [entries] is [None]. *)
Record t := mk { roleId : string; entries : option Z }.
End RoleEntry.

(** The part of a setup the join task reads.  An element of [roleEntries] that
    is [null] (reading its [roleId] throws) is [None]; a [roleEntries] that is
    absent or not an array is the empty list.  Configured counts are integers. *)
Record Setup := mkSetup
  { baseEntries : option Z; roleEntries : list (option RoleEntry.t) }.

Module FinalFloat.
(** An element of [gw.finalFloats]: [{id, userId, pfFloat}]. *)
Record t := mk { id : string; userId : string; pfFloat : option Q }.
End FinalFloat.

(** The giveaway object [gw]; [winner] refers to an entry object of the
    ledger, by its position. *)
Record Giveaway := mkGiveaway
  { setup : Setup;
    entries : list Entry;
    entrantsByUser : gmap string nat;
    collecting : bool;
    endAt : Z;
    clientSeed1 : option string;
    clientSeed2 : option string;
    serverSeed : string;
    finalFloats : option (list FinalFloat.t);
    winner : option nat }.

Definition set_entries (l : list Entry) (g : Giveaway) : Giveaway :=
  mkGiveaway (setup g) l (entrantsByUser g) (collecting g) (endAt g)
             (clientSeed1 g) (clientSeed2 g) (serverSeed g) (finalFloats g) (winner g).
Definition set_entrantsByUser (m : gmap string nat) (g : Giveaway) : Giveaway :=
  mkGiveaway (setup g) (entries g) m (collecting g) (endAt g)
             (clientSeed1 g) (clientSeed2 g) (serverSeed g) (finalFloats g) (winner g).
Definition set_collecting (b : bool) (g : Giveaway) : Giveaway :=
  mkGiveaway (setup g) (entries g) (entrantsByUser g) b (endAt g)
             (clientSeed1 g) (clientSeed2 g) (serverSeed g) (finalFloats g) (winner g).
Definition set_seeds (cs1 cs2 : string) (g : Giveaway) : Giveaway :=
  mkGiveaway (setup g) (entries g) (entrantsByUser g) (collecting g) (endAt g)
             (Some cs1) (Some cs2) (serverSeed g) (finalFloats g) (winner g).
Definition set_result (w : option nat) (ff : list FinalFloat.t) (g : Giveaway) : Giveaway :=
  mkGiveaway (setup g) (entries g) (entrantsByUser g) (collecting g) (endAt g)
             (clientSeed1 g) (clientSeed2 g) (serverSeed g) (Some ff) w.

(** The giveaway created by [$start]. *)
Definition newGiveaway (s : Setup) (serverSeed : string) (endAt : Z) : Giveaway :=
  mkGiveaway s [] ∅ true endAt None None serverSeed None None.

(** ** Fairness derivation: [hmacFloat] *)

Definition Math_pow_16_13 : Q := Binary64.rnd (inject_Z (16 ^ 13)).

Definition hmacFloat (serverSeed message : string) : option Q :=
  let h := JS.createHmac_sha512_hex serverSeed message in
  let prefix := JS.slice0 13 h in
  let intVal := JS.parseInt16 prefix in
  let denom := Math_pow_16_13 in
  match intVal with
  | Some v => Some (Binary64.fdiv v denom)
  | None => None
  end.

(** The template literal [`${gw.clientSeed1}:${gw.clientSeed2}:${i}`]. *)
Definition fairnessMessage (cs1 cs2 : string) (i : nat) : string :=
  (cs1 ++ ":" ++ cs2 ++ ":" ++ JS.string_of_index i)%string.

Definition seedText (s : option string) : string := default ""%string s.

(** The loop that stores [e.pfFloat] in every entry object of the ledger. *)
Definition assignFloats (g : Giveaway) : list Entry :=
  imap (fun i e =>
          set_pfFloat
            (hmacFloat (serverSeed g)
               (fairnessMessage (seedText (clientSeed1 g)) (seedText (clientSeed2 g)) i)) e)
       (entries g).

(** [pfFloat] of the entry object a reference points to. *)
Definition pf (store : list Entry) (i : nat) : option Q := store !! i ≫= pfFloat.

(** The comparator [(a, b) => b.pfFloat - a.pfFloat]. *)
Definition byFloatDesc (store : list Entry) (a b : nat) : option Q :=
  match pf store b, pf store a with
  | Some y, Some x => Some (Binary64.fsub y x)
  | _, _ => None
  end.

(** [entries = gw.entries.slice()] followed by [entries.sort(...)]: the array of
    references to the ledger's entry objects, sorted. *)
Definition ranking (store : list Entry) : list nat :=
  JS.array_sort (byFloatDesc store) (seq 0 (length store)).

(** ** Rounds 1 to 3 *)

Definition rounds : list Q :=
  [Binary64.lit (30 # 100); Binary64.lit (40 # 100); Binary64.lit (25 # 100)].

Definition updates : nat := 5.

(** [frac = (u + 1) / updates] *)
Definition frac (u : nat) : Q :=
  Binary64.fdiv (Binary64.of_nat (u + 1)) (Binary64.of_nat updates).

Record RoundResult := mkRound
  { preview : list (list nat); eliminated : list nat; remaining : list nat }.

Definition previewEntries (eliminatePercent : Q) (currentEntries : list nat) (u : nat)
  : list nat :=
  let eliminateCount :=
    Qfloor (Binary64.fmul
              (Binary64.fmul eliminatePercent (Binary64.of_nat (length currentEntries)))
              (frac u)) in
  take (Z.to_nat (Z.max 1 (Z.of_nat (length currentEntries) - eliminateCount))) currentEntries.

(** [Math.max(1, Math.floor(currentEntries.length * (1 - eliminatePercent)))] *)
Definition keepCount (eliminatePercent : Q) (len : nat) : Z :=
  Z.max 1 (Qfloor (Binary64.fmul (Binary64.of_nat len) (Binary64.fsub 1 eliminatePercent))).

Definition playRound (eliminatePercent : Q) (currentEntries : list nat) : RoundResult :=
  let k := Z.to_nat (keepCount eliminatePercent (length currentEntries)) in
  mkRound (map (previewEntries eliminatePercent currentEntries) (seq 0 updates))
          (drop k currentEntries) (take k currentEntries).

Fixpoint playRounds (ps : list Q) (currentEntries : list nat)
  : list RoundResult * list nat :=
  match ps with
  | [] => ([], currentEntries)
  | p :: ps' =>
      let r := playRound p currentEntries in
      let rest := playRounds ps' (remaining r) in
      (r :: fst rest, snd rest)
  end.

(** ** Final phase *)

(** [Math.max(1, Math.floor(currentEntries.length * 0.12))] *)
Definition toEliminate (len : nat) : Z :=
  Z.max 1 (Qfloor (Binary64.fmul (Binary64.of_nat len) (Binary64.lit (12 # 100)))).

Definition previewFinal (currentEntries : list nat) (u : nat) : list nat :=
  let len := Z.of_nat (length currentEntries) in
  let elimCountNow :=
    Z.min (len - 1)
          (Qfloor (Binary64.fmul (inject_Z (toEliminate (length currentEntries))) (frac u))) in
  take (Z.to_nat (Z.max 1 (len - elimCountNow))) currentEntries.

(** [Math.max(1, currentEntries.length - toEliminate)] *)
Definition finalKeepCount (len : nat) : Z :=
  Z.max 1 (Z.of_nat len - toEliminate len).

Definition playFinalPass (currentEntries : list nat) : RoundResult :=
  let k := Z.to_nat (finalKeepCount (length currentEntries)) in
  mkRound (map (previewFinal currentEntries) (seq 0 updates))
          (drop k currentEntries) (take k currentEntries).

Lemma finalPass_decreases (cur : list nat) :
  (1 < length cur)%nat -> (length (remaining (playFinalPass cur)) < length cur)%nat.
Proof.
  intros H. cbn [playFinalPass remaining]. rewrite length_take.
  unfold finalKeepCount, toEliminate. lia.
Qed.

(** [while (currentEntries.length > 1) { ... }]: the passes, and the array the
    loop leaves. *)
Equations finalPhase (currentEntries : list nat) : list RoundResult * list nat
  by wf (length currentEntries) lt :=
  finalPhase currentEntries with decide (1 < length currentEntries)%nat := {
    | left H =>
        let rest := finalPhase (remaining (playFinalPass currentEntries)) in
        (playFinalPass currentEntries :: fst rest, snd rest);
    | right _ => ([], currentEntries) }.
Next Obligation. apply finalPass_decreases; assumption. Qed.

(** ** [runBattleRoyale] *)

Inductive RunError := GiveawayNotFound | SeedsMissing | ChannelNotFound | MessageNotFound.

(** How the synchronous first part of [runBattleRoyale] ends: it throws, it
    returns on an empty ledger, or it has ranked the entries and goes on (the
    rest of the function only awaits timers and the message platform). *)
Inductive RunStart :=
| Threw (e : RunError)
| NoEntries
| Ranked (sorted : list nat).

Definition truthy (s : option string) : bool :=
  match s with
  | Some s => negb (String.eqb s "")
  | None => false
  end.

(** What the awaited calls of the message platform give: whether
    [interaction.reply] succeeds, and whether the fetches of the channel and of
    the giveaway message find them. *)
Record Platform := mkPlatform { reply : bool; channel : bool; msg : bool }.

(** [!gw.clientSeed1 || !gw.clientSeed2] *)
Definition seedsMissing (g : Giveaway) : bool :=
  negb (truthy (clientSeed1 g)) || negb (truthy (clientSeed2 g)).

Definition fetched (pl : Platform) : option RunError :=
  if negb (channel pl) then Some ChannelNotFound
  else if negb (msg pl) then Some MessageNotFound
  else None.

(** The synchronous block that follows the fetches: the test of the empty
    ledger, the floats and the sort. *)
Definition rankEntries (g : Giveaway) : RunStart * Giveaway :=
  if (length (entries g) =? 0)%nat then (NoEntries, g)
  else
    let store := assignFloats g in
    (Ranked (ranking store), set_entries store g).

(** [runBattleRoyale] up to the sort, when no other handler runs during its
    awaits. *)
Definition runStart (pl : Platform) (g : Giveaway) : RunStart * Giveaway :=
  if negb (truthy (clientSeed1 g)) || negb (truthy (clientSeed2 g)) then (Threw SeedsMissing, g)
  else if negb (channel pl) then (Threw ChannelNotFound, g)
  else if negb (msg pl) then (Threw MessageNotFound, g)
  else if (length (entries g) =? 0)%nat then (NoEntries, g)
  else
    let store := assignFloats g in
    (Ranked (ranking store), set_entries store g).

Definition finalFloat (e : Entry) : FinalFloat.t :=
  FinalFloat.mk (id e) (userId e) (pfFloat e).

(** The rounds, the final phase and the assignments to [gw.winner] and
    [gw.finalFloats], for the sorted array [entries] of a run; the entry
    objects are read from the ledger. *)
Definition survivors (sorted : list nat) : list nat :=
  snd (finalPhase (snd (playRounds rounds sorted))).

Definition runFinish (sorted : list nat) (g : Giveaway) : Giveaway :=
  let currentEntries := survivors sorted in
  let winnerEntry := head currentEntries in
  set_result winnerEntry (omap (fun i => finalFloat <$> entries g !! i) sorted) g.

(** A run that no other handler interleaves with. *)
Definition runBattleRoyale (pl : Platform) (g : Giveaway) : RunStart * Giveaway :=
  match runStart pl g with
  | (Ranked sorted, g') => (Ranked sorted, runFinish sorted g')
  | r => r
  end.

(** ** The join task *)

(** What resolving the member gives inside the task's [try]: the member's
    roles, [null] (the fetch was rejected), or an exception. *)
Inductive MemberResult :=
| Member (roles : list string)
| NoMember
| MemberThrows.

(** The interaction a join task closes over; [freshId i] is the identifier
    generated for the [i]-th row of the task. *)
Record Interaction := mkInteraction
  { user_id : string; user_username : string; member : MemberResult; freshId : nat -> string }.

(** [x ? parseInt(x) : 1] and [x || y] on a configured count. *)
Definition orElse (x : option Z) (y : Z) : Z :=
  match x with
  | Some 0 | None => y
  | Some v => v
  end.

(** The [for (const re of gw.setup.roleEntries)] loop; a [null] element throws
    and the [catch] leaves [entryCount] as it is. *)
Fixpoint roleLoop (roles : list string) (res : list (option RoleEntry.t)) (entryCount : Z) : Z :=
  match res with
  | [] => entryCount
  | None :: _ => entryCount
  | Some re :: res' =>
      if String.eqb (RoleEntry.roleId re) "" then roleLoop roles res' entryCount
      else if bool_decide (RoleEntry.roleId re ∈ roles)
           then roleLoop roles res' (Z.max entryCount (orElse (RoleEntry.entries re) entryCount))
           else roleLoop roles res' entryCount
  end.

Definition entryCount (s : Setup) (m : MemberResult) : Z :=
  let entryCount := orElse (baseEntries s) 1 in
  match m with
  | Member roles => roleLoop roles (roleEntries s) entryCount
  | NoMember => entryCount
  | MemberThrows => entryCount
  end.

Definition newEntries (s : Setup) (it : Interaction) : list Entry :=
  map (fun i => mkEntry (freshId it i) (user_id it) (user_username it) None)
      (seq 0 (Z.to_nat (entryCount s (member it)))).

(** The task pushed on the join queue: the giveaway after it, and the number
    of entries it reports to the user. *)
Definition joinTask (it : Interaction) (g : Giveaway) : Giveaway * nat :=
  let rows := newEntries (setup g) it in
  let total := (default 0%nat (entrantsByUser g !! user_id it) + length rows)%nat in
  (set_entrantsByUser (<[user_id it := total]> (entrantsByUser g)) (set_entries (entries g ++ rows) g),
   length rows).

(** ** The handlers, interleaved *)

(** Where a seeds handler stands between two of its awaits. *)
Inductive Pending :=
| AwaitReply                       (* [interaction.reply], before [runBattleRoyale] is called *)
| AwaitFetch                       (* the fetches of the channel and of the message *)
| AwaitEnd (sorted : list nat).    (* the timers of the rounds, with the sorted array *)

(** The giveaway, the join tasks that have not yet appended their rows, in
    the order of [joinQueue], and the seeds handlers under way. *)
Record State := mkState { gw : Giveaway; queue : list Interaction; running : list Pending }.

Inductive Event :=
| Tick (now : Z)                  (* the 1 s update interval *)
| JoinClick (it : Interaction)    (* the Join button *)
| QueueTask                       (* the oldest join task appends its rows *)
| SeedsSubmit (cs1 cs2 : string)  (* the seeds modal, with the trimmed values *)
| Resume (k : nat) (pl : Platform). (* the await of the k-th seeds handler settles *)

Inductive Output :=
| Silent
| CollectionAlreadyEnded
| Queued
| Joined (n : nat)
| SeedsStored
| ReplyFailed
| SeedsReceived
| Run (r : RunStart)
| WinnerAnnounced (w : option nat).

Definition step (st : State) (ev : Event) : State * Output :=
  match ev with
  | Tick now =>
      if collecting (gw st) && (endAt (gw st) <=? now)
      then (mkState (set_collecting false (gw st)) (queue st) (running st), Silent)
      else (st, Silent)
  | JoinClick it =>
      if negb (collecting (gw st)) then (st, CollectionAlreadyEnded)
      else (mkState (gw st) (queue st ++ [it]) (running st), Queued)
  | QueueTask =>
      match queue st with
      | [] => (st, Silent)
      | it :: q =>
          let r := joinTask it (gw st) in
          (mkState (fst r) q (running st), Joined (snd r))
      end
  | SeedsSubmit cs1 cs2 =>
      (mkState (set_seeds cs1 cs2 (gw st)) (queue st) (running st ++ [AwaitReply]), SeedsStored)
  | Resume k pl =>
      match running st !! k with
      | None => (st, Silent)
      | Some AwaitReply =>
          if negb (reply pl) then (mkState (gw st) (queue st) (delete k (running st)), ReplyFailed)
          else if seedsMissing (gw st)
               then (mkState (gw st) (queue st) (delete k (running st)), Run (Threw SeedsMissing))
               else (mkState (gw st) (queue st) (<[k := AwaitFetch]> (running st)), SeedsReceived)
      | Some AwaitFetch =>
          match fetched pl with
          | Some e => (mkState (gw st) (queue st) (delete k (running st)), Run (Threw e))
          | None =>
              match rankEntries (gw st) with
              | (Ranked sorted, g) =>
                  (mkState g (queue st) (<[k := AwaitEnd sorted]> (running st)), Run (Ranked sorted))
              | (r, g) => (mkState g (queue st) (delete k (running st)), Run r)
              end
          end
      | Some (AwaitEnd sorted) =>
          let g := runFinish sorted (gw st) in
          (mkState g (queue st) (delete k (running st)), WinnerAnnounced (winner g))
      end
  end.

Definition steps (st : State) (evs : list Event) : State :=
  fold_left (fun s ev => fst (step s ev)) evs st.


Definition initial (s : Setup) (serverSeed : string) (endAt : Z) : State :=
  mkState (newGiveaway s serverSeed endAt) [] [].


(** ** Definitions used in the statements *)

(** The unsigned integer a string of hexadecimal digits denotes. *)
Definition unsigned_of_hex (l : list ascii) : Z :=
  fold_left (fun acc c => 16 * acc + default 0 (JS.digit16 c)) l 0.

Definition is_hex (l : list ascii) : Prop := Forall (fun c => is_Some (JS.digit16 c)) l.

(** Reference [i] ranks before reference [j]: its fairness value is greater,
    or the values are equal and [i] is the smaller sequence index. *)
Definition ranksBefore (store : list Entry) (i j : nat) : Prop :=
  match pf store i, pf store j with
  | Some x, Some y => (y < x)%Q \/ ((x == y)%Q /\ (i < j)%nat)
  | _, _ => False
  end.

(** The keep count of a round as the specification words it, in exact
    arithmetic: [max(1, floor(n * (1 - fraction)))]. *)
Definition exactKeepCount (fraction : Q) (n : nat) : Z :=
  Z.max 1 (Qfloor (inject_Z (Z.of_nat n) * (1 - fraction))).


(** The elimination fractions as the specification gives them. *)
Definition exactRounds : list Q := [30 # 100; 40 # 100; 25 # 100].

(** Consecutive rounds or passes: each one splits the survivors the previous
    one left into those it keeps and those it eliminates. *)
Fixpoint chained (currentEntries : list nat) (rs : list RoundResult) : Prop :=
  match rs with
  | [] => True
  | r :: rs' => remaining r ++ eliminated r = currentEntries /\ chained (remaining r) rs'
  end.

(** The value of one hexadecimal digit. *)
Definition nibble (d : Z) : Prop := 0 <= d < 16.

(** The fairness value of the entry a reference points to, once assigned. *)
Definition floatOf (store : list Entry) (i : nat) : Q := default 0%Q (pf store i).

(** One rounding multiplies a positive value by at most [1 + 2^-52]. *)
Definition ulp_factor : Q := (2 ^ 52 + 1) # 2 ^ 52.

(** What a round does to the array it is given, for the fraction [p]. *)
Definition round_ok (p : Q) (cur : list nat) (r : RoundResult) : Prop :=
  let n := length cur in
  remaining r = take (Z.to_nat (keepCount p n)) cur /\
  eliminated r = drop (Z.to_nat (keepCount p n)) cur /\
  Z.of_nat (length (remaining r)) = keepCount p n /\
  Z.of_nat (length (eliminated r)) = Z.of_nat n - keepCount p n.

(** What one pass of the final phase does to the count. *)
Definition pass_ok (r : RoundResult) : Prop :=
  let n := (length (remaining r) + length (eliminated r))%nat in
  (1 < n)%nat /\
  Z.of_nat (length (eliminated r)) = toEliminate n /\
  (1 <= length (remaining r) < n)%nat.


(** The passes of the final phase, for the pool the three rounds leave. *)
Definition finalPasses (sorted : list nat) : list RoundResult :=
  fst (finalPhase (snd (playRounds rounds sorted))).

(** The part of a ledger row that never changes. *)
Definition rowOf (e : Entry) : string * string := (id e, userId e).

Definition rowOfFinal (f : FinalFloat.t) : string * string :=
  (FinalFloat.id f, FinalFloat.userId f).






(** The setup of the specification's scenario: one entry for everybody, five
    for the members with the role [vip]. *)
Definition vipSetup : Setup := mkSetup (Some 1) [Some (RoleEntry.mk "vip" (Some 5))].

(** The interaction of user [u]; the rows of a task are named [u-0], [u-1], ... *)
Definition asUser (u : string) (m : MemberResult) : Interaction :=
  mkInteraction u u m (fun i => (u ++ "-" ++ JS.string_of_index i)%string).

(** The channel and the giveaway message are found. *)
Definition platformUp : Platform := mkPlatform true true true.

(** A giveaway with one entry of [ann] and one of [bob], collection still open. *)
Definition twoJoined : State :=
  steps (initial vipSetup "replace_with_64_char_key" 1000)
        [JoinClick (asUser "ann" (Member [])); QueueTask;
         JoinClick (asUser "bob" NoMember); QueueTask].

(** A seeds handler that runs to its end with no other handler in between. *)
Definition submitAndRun (cs1 cs2 : string) (k : nat) : list Event :=
  [SeedsSubmit cs1 cs2; Resume k platformUp; Resume k platformUp; Resume k platformUp].

(** The same after collection has ended and a run with the seeds [block] and
    [creator] has announced its winner. *)
Definition finished : State :=
  steps twoJoined (Tick 1000 :: submitAndRun "block" "creator" 0).

(** ** Strings and ordinary objects of the handlers *)

Module Str.

(** [s.split(sep)] for a separator of one ASCII character: the pieces between
    its occurrences, of which there is always at least one. *)
Fixpoint split (sep : ascii) (s : string) : list string :=
  match s with
  | EmptyString => [EmptyString]
  | String c s' =>
      if Ascii.eqb c sep then EmptyString :: split sep s'
      else match split sep s' with
           | piece :: pieces => String c piece :: pieces
           | [] => [String c EmptyString]
           end
  end.

(** [s.startsWith(p)] *)
Definition startsWith (s p : string) : bool := String.prefix p s.

(** A non-negative integer in a template literal: its decimal numeral. *)
Definition ofN (n : N) : string := NilZero.string_of_uint (N.to_uint n).



End Str.

Module Obj.

(** The names [Object.prototype] defines in Node: every object literal and
    every object that [JSON.parse] builds inherits them. *)
Definition prototypeKeys : list string :=
  ["constructor"; "__defineGetter__"; "__defineSetter__"; "hasOwnProperty";
   "__lookupGetter__"; "__lookupSetter__"; "isPrototypeOf"; "propertyIsEnumerable";
   "toString"; "valueOf"; "__proto__"; "toLocaleString"]%string.

(** An array index: the canonical numeral of an integer below [2^32 - 1]. *)
Definition arrayIndex (k : string) : option N :=
  match NilZero.uint_of_string k with
  | Some u =>
      let n := N.of_uint u in
      if String.eqb (Str.ofN n) k && (n <? 2 ^ 32 - 1)%N then Some n else None
  | None => None
  end.

Section Obj.
Context {V : Type}.

(** The own properties of an object, in the order of their creation. *)
Definition t := list (string * V).

(** What reading [o[k]] finds: an own property, a member of the prototype, or
    nothing ([undefined]). *)
Inductive Lookup :=
| Own (v : V)
| Inherited
| Undefined.

Fixpoint getOwn (o : t) (k : string) : option V :=
  match o with
  | [] => None
  | (k', v) :: o' => if String.eqb k' k then Some v else getOwn o' k
  end.

Definition lookup (o : t) (k : string) : Lookup :=
  match getOwn o k with
  | Some v => Own v
  | None => if bool_decide (k ∈ prototypeKeys) then Inherited else Undefined
  end.

(** [o[k] = v] for a key that is not a setter of the prototype: an existing
    property keeps its place, a new one is created last. *)
Fixpoint set (k : string) (v : V) (o : t) : t :=
  match o with
  | [] => [(k, v)]
  | (k', v') :: o' => if String.eqb k' k then (k', v) :: o' else (k', v') :: set k v o'
  end.

(** [delete o[k]] *)
Definition delete (k : string) (o : t) : t :=
  List.filter (fun p => negb (String.eqb (fst p) k)) o.

Definition indexed (o : t) : list (N * (string * V)) :=
  omap (fun p => (fun n => (n, p)) <$> arrayIndex (fst p)) o.

Fixpoint insertByIndex (x : N * (string * V)) (l : list (N * (string * V)))
  : list (N * (string * V)) :=
  match l with
  | [] => [x]
  | y :: l' => if (fst x <=? fst y)%N then x :: l else y :: insertByIndex x l'
  end.

Definition sortByIndex (l : list (N * (string * V))) : list (N * (string * V)) :=
  foldr insertByIndex [] l.

(** [Object.entries(o)]: the array indices in ascending order, then the other
    keys in the order of their creation. *)
Definition entries (o : t) : list (string * V) :=
  map snd (sortByIndex (indexed o))
  ++ List.filter (fun p => bool_decide (arrayIndex (fst p) = None)) o.


(** The properties [props] defined on [o] one after the other, and the
    spread [{ ...o, ...source }] of the own properties of [source]. *)
Definition define (o : t) (props : list (string * V)) : t :=
  fold_left (fun o p => set (fst p) (snd p) o) props o.

Definition spread (o source : t) : t := define o (entries source).

End Obj.
Arguments t : clear implicits.
Arguments Lookup : clear implicits.
End Obj.

(** ** The identifiers of a giveaway and of its buttons *)

(** [`gw_${Date.now()}`], the key of the giveaway in [GIVEAWAYS]. *)
Definition gwIdOf (now : N) : string := ("gw_" ++ Str.ofN now)%string.

(** The [customId] of the Join button, of the Verify button and of the seeds
    modal. *)
Definition joinCustomId (gwId : string) : string := ("join_" ++ gwId)%string.
Definition verifyCustomId (gwId : string) : string := ("verify_" ++ gwId)%string.
Definition seedsCustomId (gwId : string) : string := ("seeds_" ++ gwId)%string.

(** [customId.split('_')[1]], the key the handlers look up; a missing second
    piece is [undefined], which as a property key reads [undefined]. *)
Definition splitGwId (customId : string) : string :=
  default "undefined"%string (Str.split "_" customId !! 1%nat).

(** [GIVEAWAYS[gwId]]; the values of [GIVEAWAYS] are the giveaway objects the
    program stores. *)
Definition findGiveaway (GIVEAWAYS : gmap string Giveaway) (gwId : string)
  : Obj.Lookup Giveaway :=
  match GIVEAWAYS !! gwId with
  | Some g => Obj.Own g
  | None => if bool_decide (gwId ∈ Obj.prototypeKeys) then Obj.Inherited else Obj.Undefined
  end.

Inductive InteractionKind := ModalSubmit | Button | OtherInteraction.

(** Where [interactionCreate] sends an interaction. *)
Inductive Routed :=
| Ignored                                   (* the handler returns, no answer *)
| GiveawayNotFoundReply                     (* the reply [Giveaway not found] *)
| OnPrototype (gwId : string)               (* [gw] is a member of [Object.prototype] *)
| SeedsHandler (gwId : string) (g : Giveaway)
| JoinHandler (gwId : string) (g : Giveaway)
| ShowModal (modalCustomId : string) (g : Giveaway).

Definition found (GIVEAWAYS : gmap string Giveaway) (gwId : string)
           (handler : Giveaway -> Routed) : Routed :=
  match findGiveaway GIVEAWAYS gwId with
  | Obj.Own g => handler g
  | Obj.Inherited => OnPrototype gwId
  | Obj.Undefined => GiveawayNotFoundReply
  end.

(** The dispatch of [client.on('interactionCreate', ...)], up to the handler
    that takes the interaction; [customId] is [interaction.customId || '']. *)
Definition interactionCreate (GIVEAWAYS : gmap string Giveaway) (kind : InteractionKind)
           (customId : string) : Routed :=
  match kind with
  | ModalSubmit =>
      if Str.startsWith customId "seeds_"
      then found GIVEAWAYS (splitGwId customId) (SeedsHandler (splitGwId customId))
      else Ignored
  | Button =>
      if Str.startsWith customId "join_"
      then found GIVEAWAYS (splitGwId customId) (JoinHandler (splitGwId customId))
      else if Str.startsWith customId "verify_"
           then found GIVEAWAYS (splitGwId customId)
                      (ShowModal (seedsCustomId (splitGwId customId)))
           else Ignored
  | OtherInteraction => Ignored
  end.

(** [GIVEAWAYS[gwId] = gw] in [$start], for the giveaways started at the given
    times, the earliest first. *)
Definition started (GIVEAWAYS : gmap string Giveaway) (starts : list (N * Giveaway))
  : gmap string Giveaway :=
  fold_left (fun G p => <[gwIdOf (fst p) := snd p]> G) starts GIVEAWAYS.

(** ** The class [JoinQueue] *)

Module JoinQueue.
Section JoinQueue.
Context {T : Type}.

(** Where one run of the asynchronous loop of [startProcessing] stands: at
    [await t()] or at the timer of one second. *)
Inductive Await :=
| AwaitTask (task : T)
| AwaitTimer.

(** [this.queue], [this.processing] and the loops that have been started and
    have not ended. *)
Record t := mk { queue : list T; processing : bool; loops : list Await }.

(** [new JoinQueue()] *)
Definition new : t := mk [] false [].

(** The loop from its [while] test to its next await, for the loop at
    position [k] (a new loop when [k] is [length (loops q)]): the task it
    takes from the queue and calls, or the end of the loop. *)
Definition iterate (k : nat) (q : t) : t * option T :=
  match queue q with
  | task :: rest =>
      (mk rest (processing q)
          (if decide (k < length (loops q))%nat then <[k := AwaitTask task]> (loops q)
           else loops q ++ [AwaitTask task]),
       Some task)
  | [] => (mk [] false (base.delete k (loops q)), None)
  end.

Definition startProcessing (q : t) : t * option T :=
  if processing q then (q, None)
  else iterate (length (loops q)) (mk (queue q) true (loops q)).

Definition push (task : T) (q : t) : t * option T :=
  startProcessing (mk (queue q ++ [task]) (processing q) (loops q)).

Inductive Event :=
| Push (task : T)          (* [joinQueue.push(task)] *)
| TaskSettled (k : nat) (rejected : bool)
                           (* the promise of the task of loop [k] settles; a
                              rejection is caught and logged *)
| TimerFired (k : nat).    (* the timer of loop [k] fires *)

(** One event: the queue after it, and the task it has started, if any. *)
Definition step (q : t) (ev : Event) : t * option T :=
  match ev with
  | Push task => push task q
  | TaskSettled k _ =>
      match loops q !! k with
      | Some (AwaitTask _) => (mk (queue q) (processing q) (<[k := AwaitTimer]> (loops q)), None)
      | _ => (q, None)
      end
  | TimerFired k =>
      match loops q !! k with
      | Some AwaitTimer => iterate k q
      | _ => (q, None)
      end
  end.

Definition run (q : t) (evs : list Event) : t :=
  fold_left (fun q ev => fst (step q ev)) evs q.

(** The tasks the events start, in the order in which they are called. *)
Fixpoint calls (q : t) (evs : list Event) : list T :=
  match evs with
  | [] => []
  | ev :: evs' => option_list (snd (step q ev)) ++ calls (fst (step q ev)) evs'
  end.

(** The tasks the events push, in the order of the pushes. *)
Definition pushed (evs : list Event) : list T :=
  omap (fun ev => match ev with Push task => Some task | _ => None end) evs.

(** The flag [processing] is set exactly while one loop is under way, and
    the queue is as new when none is. *)
Definition guarded (q : t) : Prop :=
  (processing q = true /\ exists a, loops q = [a]) \/ q = new.

(** The task under way settles and the timer fires, once for every element
    of [outcomes]. *)
Definition drain (outcomes : list bool) : list Event :=
  flat_map (fun rejected => [TaskSettled 0 rejected; TimerFired 0]) outcomes.

End JoinQueue.
Arguments t : clear implicits.
Arguments Event : clear implicits.
Arguments Await : clear implicits.
End JoinQueue.

(** ** The participants field of the embeds *)




(** [for (const e of entries) byUser[e.userId] = (byUser[e.userId] || 0) + 1];
    a user id is a Discord snowflake, a decimal numeral, and so none of the
    names that [Object.prototype] defines. *)
Definition countInto (byUser : Obj.t nat) (entries : list Entry) : Obj.t nat :=
  fold_left (fun o e => Obj.set (userId e) (default 0%nat (Obj.getOwn o (userId e)) + 1)%nat o)
            entries byUser.

(** [const byUser = {}] and the loop. *)
Definition byUser (entries : list Entry) : Obj.t nat := countInto [] entries.




(** ** The live update of the giveaway message *)

Record Embed := mkEmbed
  { entriesField : nat; collectingField : bool; participantsField : string;
    joinDisabled : bool }.

(** What one run of the update interval does besides closing the collection:
    nothing when the channel or the message is not found, else the embed it
    writes and the total of the notice [Collection ended] when it sends it. *)
Inductive Update :=
| NotFetched
| Edited (e : Embed) (notice : option nat).


(** The total of the notice [Collection ended] of an update, when it sends
    one. *)
Definition notice (u : Update) : option nat :=
  match u with
  | Edited _ n => n
  | NotFetched => None
  end.

(** ** Definitions used in the statements about the handlers *)

(** A tick at or after the end of the collection window. *)
Definition closes (endAt : Z) (ev : Event) : bool :=
  match ev with
  | Tick now => endAt <=? now
  | _ => false
  end.



(** The fairness value of the first element is at least that of the second. *)
Definition notBelow (a b : FinalFloat.t) : Prop :=
  exists x y, FinalFloat.pfFloat a = Some x /\ FinalFloat.pfFloat b = Some y /\ (y <= x)%Q.

(** All the rounds and passes of a tournament, in their order. *)
Definition allRounds (sorted : list nat) : list RoundResult :=
  fst (playRounds rounds sorted) ++ finalPasses sorted.

(** A preview frame of a round or pass on [cur]: it shows a prefix of [cur]
    that holds the entries the round or pass keeps. *)
Definition frame_ok (cur : list nat) (r : RoundResult) (frame : list nat) : Prop :=
  remaining r `prefix_of` frame /\ frame `prefix_of` cur.

(** ** The web API of the setups *)

Module Api.

#[warnings="-register-all"]
Inductive JSON :=
| JNull
| JBool (b : bool)
| JNum (q : Q)
| JStr (s : string)
| JArr (l : list JSON)
| JObj (o : list (string * JSON)).

(** The truth value of a JSON value in a condition. *)
Definition truthy (v : JSON) : bool :=
  match v with
  | JNull => false
  | JBool b => b
  | JNum q => negb (Qeq_bool q 0)
  | JStr s => negb (String.eqb s EmptyString)
  | JArr _ => true
  | JObj _ => true
  end.

Record Response := Json { status : nat; body : JSON }.

(** [`setup_${Date.now()}`] *)
Definition setupIdOf (now : N) : string := ("setup_" ++ Str.ofN now)%string.

(** [{ id, ...body }], for the own properties of the request body. *)
Definition withId (id : string) (body : Obj.t JSON) : Obj.t JSON :=
  Obj.spread [("id"%string, JStr id)] body.

(** [app.post('/api/setups', ...)] at the time [now] *)
Definition postSetup (now : N) (body : Obj.t JSON) (SETUPS : Obj.t JSON)
  : Obj.t JSON * Response :=
  let id := setupIdOf now in
  let setup := JObj (withId id body) in
  (Obj.set id setup SETUPS,
   Json 200 (JObj [("ok"%string, JBool true); ("id"%string, JStr id); ("setup"%string, setup)])).

(** [if (SETUPS[id])] *)
Definition present (SETUPS : Obj.t JSON) (id : string) : bool :=
  match Obj.lookup SETUPS id with
  | Obj.Own v => truthy v
  | Obj.Inherited => true
  | Obj.Undefined => false
  end.

(** The answer [{ ok: true }]. *)
Definition ok : Response := Json 200 (JObj [("ok"%string, JBool true)]).

(** [app.delete('/api/setups/:id', ...)] *)
Definition deleteSetup (id : string) (SETUPS : Obj.t JSON) : Obj.t JSON * Response :=
  if present SETUPS id
  then (Obj.delete id SETUPS, ok)
  else (SETUPS,
        Json 404 (JObj [("ok"%string, JBool false); ("error"%string, JStr "not found")])).

(** [app.get('/api/setups', ...)] *)
Definition getSetups (SETUPS : Obj.t JSON) : Response := Json 200 (JObj SETUPS).

End Api.

(** ** The setup lookup of [$start] *)





(** ** Facts about the rounding *)

Section Rounding.
Import Binary64.

Lemma pow2_pos (k : Z) : 0 < 2 ^ k \/ (k < 0 /\ 2 ^ k = 0).
Proof.
  destruct (Z_lt_le_dec k 0) as [H | H].
  - right. split; [assumption | apply Z.pow_neg_r; assumption].
  - left. apply Z.pow_pos_nonneg; lia.
Qed.

Lemma pow2_max_pos (k : Z) : 0 < 2 ^ Z.max 0 k.
Proof. apply Z.pow_pos_nonneg; lia. Qed.

Lemma scaled_mantissa (a b : Z) :
  0 < a -> 0 < b ->
  let e := expo a b in
  0 < snd (scaled a b e) /\ 2 ^ 52 * snd (scaled a b e) <= fst (scaled a b e).
Proof.
  intros Ha Hb e. 
  pose proof (Z.log2_spec a Ha) as [Hla1 Hla2].
  pose proof (Z.log2_spec b Hb) as [Hlb1 Hlb2].
  pose proof (Z.log2_nonneg a) as Hla0.
  pose proof (Z.log2_nonneg b) as Hlb0.
  set (la := Z.log2 a) in *. set (lb := Z.log2 b) in *.
  assert (Hd : forall k, 0 < snd (scaled a b k)).
  { intros k. unfold scaled; cbn [snd]. pose proof (pow2_max_pos k). nia. }
  split; [apply Hd |].
  (* the first candidate exponent *)
  assert (H0 : 2 ^ 52 * snd (scaled a b (la - lb - 53)) <= fst (scaled a b (la - lb - 53))).
  { unfold scaled; cbn [fst snd].
    destruct (Z_lt_le_dec (la - lb - 53) 0) as [Hneg | Hpos].
    - rewrite (Z.max_l 0 (la - lb - 53)) by lia.
      rewrite (Z.max_r 0 (- (la - lb - 53))) by lia.
      change (2 ^ 0) with 1. rewrite Z.mul_1_r.
      assert (E : 2 ^ 52 * 2 ^ (lb + 1) = 2 ^ la * 2 ^ (- (la - lb - 53))).
      { rewrite <- !Z.pow_add_r by lia. f_equal. lia. }
      pose proof (pow2_max_pos (- (la - lb - 53))) as P.
      rewrite (Z.max_r 0 (- (la - lb - 53))) in P by lia. nia.
    - rewrite (Z.max_r 0 (la - lb - 53)) by lia.
      rewrite (Z.max_l 0 (- (la - lb - 53))) by lia.
      change (2 ^ 0) with 1. rewrite Z.mul_1_r.
      assert (E : 2 ^ 52 * (2 ^ (lb + 1) * 2 ^ (la - lb - 53)) = 2 ^ la).
      { rewrite <- !Z.pow_add_r by lia. f_equal. lia. }
      pose proof (pow2_max_pos (la - lb - 53)) as P.
      rewrite (Z.max_r 0 (la - lb - 53)) in P by lia. nia. }
  unfold e, expo, prec. fold la lb.
  destruct (Z.leb_spec (2 ^ 53) (fst (scaled a b (la - lb - 53)) / snd (scaled a b (la - lb - 53))))
    as [Hbig | Hsmall]; [| exact H0].
  (* the quotient has 54 bits: one more *)
  assert (Hq : 2 ^ 53 * snd (scaled a b (la - lb - 53)) <= fst (scaled a b (la - lb - 53))).
  { pose proof (Hd (la - lb - 53)) as D.
    pose proof (Z.mul_div_le (fst (scaled a b (la - lb - 53))) _ D). nia. }
  revert Hq. unfold scaled; cbn [fst snd].
  destruct (Z_lt_le_dec (la - lb - 53) 0) as [Hneg | Hpos].
  - rewrite (Z.max_l 0 (la - lb - 53)) by lia.
    rewrite (Z.max_r 0 (- (la - lb - 53))) by lia.
    rewrite (Z.max_l 0 (la - lb - 53 + 1)) by lia.
    rewrite (Z.max_r 0 (- (la - lb - 53 + 1))) by lia.
    replace (- (la - lb - 53)) with (Z.succ (- (la - lb - 53 + 1))) by lia.
    rewrite Z.pow_succ_r by lia.
    change (2 ^ 53) with (2 * 2 ^ 52). lia.
  - rewrite (Z.max_r 0 (la - lb - 53)) by lia.
    rewrite (Z.max_l 0 (- (la - lb - 53))) by lia.
    rewrite (Z.max_r 0 (la - lb - 53 + 1)) by lia.
    rewrite (Z.max_l 0 (- (la - lb - 53 + 1))) by lia.
    replace (la - lb - 53 + 1) with (Z.succ (la - lb - 53)) by lia.
    rewrite Z.pow_succ_r by lia.
    change (2 ^ 53) with (2 * 2 ^ 52). lia.
Qed.

Lemma nearest_even_bounds (n d : Z) : n / d <= nearest_even n d <= n / d + 1.
Proof. unfold nearest_even. destruct (_ || _); lia. Qed.

Lemma of_mant_value (m e : Z) :
  (of_mant m e == (m * 2 ^ Z.max 0 e) # Z.to_pos (2 ^ Z.max 0 (- e)))%Q.
Proof. unfold of_mant. apply Qred_correct. Qed.

(** The rounded value, as a fraction with the mantissa's bounds. *)
Lemma rnd_pos_shape (a b : Z) :
  0 < a -> 0 < b ->
  exists m p n : Z,
    0 < p /\ 0 < n /\ 2 ^ 52 <= m /\
    (rnd_pos a b == (m * p) # Z.to_pos n)%Q /\
    2 ^ 52 * (m * p * b) <= (2 ^ 52 + 1) * (a * n) /\
    2 ^ 52 * (a * n) <= (2 ^ 52 + 1) * (m * p * b).
Proof.
  intros Ha Hb.
  destruct (scaled_mantissa a b Ha Hb) as [Hd Hm].
  set (e := expo a b) in *.
  pose proof (nearest_even_bounds (fst (scaled a b e)) (snd (scaled a b e))) as Hne.
  exists (nearest_even (fst (scaled a b e)) (snd (scaled a b e))),
         (2 ^ Z.max 0 e), (2 ^ Z.max 0 (- e)).
  pose proof (pow2_max_pos e) as Pp. pose proof (pow2_max_pos (- e)) as Pn.
  assert (Hquot : 2 ^ 52 <= fst (scaled a b e) / snd (scaled a b e)).
  { apply Z.div_le_lower_bound; lia. }
  pose proof (Z.mul_div_le (fst (scaled a b e)) _ Hd) as Hlow.
  pose proof (Z.mul_succ_div_gt (fst (scaled a b e)) _ Hd) as Hup.
  split; [exact Pp |]. split; [exact Pn |]. split; [lia |].
  split; [unfold rnd_pos; fold e; apply of_mant_value |].
  revert Hquot Hlow Hup Hne. unfold scaled; cbn [fst snd].
  set (q := a * 2 ^ Z.max 0 (- e) / (b * 2 ^ Z.max 0 e)).
  set (m := nearest_even _ _).
  set (p := 2 ^ Z.max 0 e) in *. set (n := 2 ^ Z.max 0 (- e)) in *.
  intros Hquot Hlow Hup Hne. split; nia.
Qed.

Lemma rnd_pos_positive (a b : Z) : 0 < a -> 0 < b -> (0 < rnd_pos a b)%Q.
Proof.
  intros Ha Hb. destruct (rnd_pos_shape a b Ha Hb) as (m & p & n & Hp & Hn & Hm & E & _).
  rewrite E. unfold Qlt; cbn. nia.
Qed.

(** Rounding keeps the sign. *)
Lemma rnd_sign (q : Q) :
  ((0 < q)%Q -> (0 < rnd q)%Q) /\ ((q < 0)%Q -> (rnd q < 0)%Q) /\ ((q == 0)%Q -> (rnd q == 0)%Q).
Proof.
  destruct q as [[| a | a] b]; unfold rnd; cbn [Qnum Qden].
  - repeat split; intros H; try reflexivity; exfalso; revert H; unfold Qlt; cbn; lia.
  - repeat split; intros H.
    + apply rnd_pos_positive; lia.
    + exfalso; revert H; unfold Qlt; cbn; lia.
    + exfalso; revert H; unfold Qeq; cbn; lia.
  - repeat split; intros H.
    + exfalso; revert H; unfold Qlt; cbn; lia.
    + assert (P : (0 < rnd_pos (Z.pos a) (Z.pos b))%Q) by (apply rnd_pos_positive; lia).
      revert P. generalize (rnd_pos (Z.pos a) (Z.pos b)). intros r. unfold Qlt, Qopp; cbn. lia.
    + exfalso; revert H; unfold Qeq; cbn; lia.
Qed.

(** The relative error of one rounding is at most [2^-52]. *)
Lemma rnd_upper (q : Q) : (0 <= q)%Q -> (rnd q <= q * ((2 ^ 52 + 1) # 2 ^ 52))%Q.
Proof.
  destruct q as [[| a | a] b]; unfold rnd; cbn [Qnum Qden]; intros H.
  - unfold Qle; cbn; lia.
  - destruct (rnd_pos_shape (Z.pos a) (Z.pos b)) as (m & p & n & Hp & Hn & Hm & E & U & _);
      [lia | lia |].
    rewrite E. unfold Qle, Qmult; cbn [Qnum Qden].
    rewrite Z2Pos.id by assumption.
    change (Z.pos (b * 2 ^ 52)) with (Z.pos b * 2 ^ 52).
    change (Z.pos (2 ^ 52)) with (2 ^ 52) in *. nia.
  - exfalso; revert H; unfold Qle; cbn; lia.
Qed.

Lemma rnd_nonneg (q : Q) : (0 <= q)%Q -> (0 <= rnd q)%Q.
Proof.
  intros H. destruct (Qlt_le_dec 0 q) as [P | N].
  - apply Qlt_le_weak, rnd_sign, P.
  - assert (E : (q == 0)%Q) by (apply Qle_antisym; assumption).
    apply Qle_lteq. right. symmetry. apply rnd_sign, E.
Qed.

(** A dyadic number with a mantissa of at most 53 bits is a double. *)
Lemma rnd_pos_exact (a j : Z) :
  0 < a < 2 ^ 53 -> 0 <= j -> (rnd_pos a (2 ^ j) == a # Z.to_pos (2 ^ j))%Q.
Proof.
  intros Ha Hj.
  assert (Pj : 0 < 2 ^ j) by (apply Z.pow_pos_nonneg; lia).
  assert (He : expo a (2 ^ j) <= - j).
  { unfold expo, prec. rewrite Z.log2_pow2 by assumption.
    assert (Z.log2 a < 53) by (apply Z.log2_lt_pow2; lia).
    destruct (_ <=? _); lia. }
  unfold rnd_pos. set (e := expo a (2 ^ j)) in *.
  rewrite of_mant_value. unfold scaled; cbn [fst snd].
  rewrite (Z.max_l 0 e) by lia. rewrite (Z.max_r 0 (- e)) by lia.
  change (2 ^ 0) with 1. rewrite !Z.mul_1_r.
  assert (Es : 2 ^ (- e) = 2 ^ (- e - j) * 2 ^ j).
  { rewrite <- Z.pow_add_r by lia. f_equal. lia. }
  assert (Pe : 0 < 2 ^ (- e - j)) by (apply Z.pow_pos_nonneg; lia).
  unfold nearest_even.
  replace (a * 2 ^ (- e)) with (a * 2 ^ (- e - j) * 2 ^ j) by (rewrite Es; ring).
  rewrite Z.div_mul by lia. rewrite Z.mod_mul by lia.
  replace (2 ^ j <? 2 * 0) with false by (symmetry; apply Z.ltb_ge; lia).
  replace (2 ^ j =? 2 * 0) with false by (symmetry; apply Z.eqb_neq; lia).
  cbn [orb andb]. unfold Qeq; cbn [Qnum Qden].
  rewrite !Z2Pos.id by (try assumption; apply Z.pow_pos_nonneg; lia).
  rewrite Es. ring.
Qed.

Lemma rnd_exact (a j : Z) :
  - 2 ^ 53 < a < 2 ^ 53 -> 0 <= j -> (rnd (a # Z.to_pos (2 ^ j)) == a # Z.to_pos (2 ^ j))%Q.
Proof.
  intros Ha Hj. assert (Pj : 0 < 2 ^ j) by (apply Z.pow_pos_nonneg; lia).
  unfold rnd; cbn [Qnum Qden]. rewrite Z2Pos.id by assumption.
  destruct a as [| a | a].
  - reflexivity.
  - apply rnd_pos_exact; lia.
  - rewrite rnd_pos_exact by lia. reflexivity.
Qed.

Lemma rnd_integer (v : Z) : - 2 ^ 53 < v < 2 ^ 53 -> (rnd (inject_Z v) == inject_Z v)%Q.
Proof. intros H. exact (rnd_exact v 0 H (Z.le_refl 0)). Qed.

End Rounding.

(** *** When the floor of a rounded product is the exact one *)

Section Exact.
Import Binary64.

Lemma scaled_mantissa_upper (a b : Z) :
  0 < a -> 0 < b ->
  fst (scaled a b (expo a b)) < 2 ^ 53 * snd (scaled a b (expo a b)).
Proof.
  intros Ha Hb.
  pose proof (Z.log2_spec a Ha) as [Hla1 Hla2].
  pose proof (Z.log2_spec b Hb) as [Hlb1 Hlb2].
  pose proof (Z.log2_nonneg a) as Hla0.
  pose proof (Z.log2_nonneg b) as Hlb0.
  set (la := Z.log2 a) in *. set (lb := Z.log2 b) in *.
  assert (Hd : forall k, 0 < snd (scaled a b k)).
  { intros k. unfold scaled; cbn [snd]. pose proof (pow2_max_pos k). nia. }
  unfold expo, prec. fold la lb.
  destruct (Z.leb_spec (2 ^ 53) (fst (scaled a b (la - lb - 53)) / snd (scaled a b (la - lb - 53))))
    as [Hbig | Hsmall].
  - (* 54 bits at the first exponent: a / b < 2^(la - lb + 1) *)
    unfold scaled; cbn [fst snd].
    destruct (Z_lt_le_dec (la - lb - 53 + 1) 0) as [Hneg | Hpos].
    + rewrite (Z.max_l 0 (la - lb - 53 + 1)) by lia.
      rewrite (Z.max_r 0 (- (la - lb - 53 + 1))) by lia.
      change (2 ^ 0) with 1. rewrite Z.mul_1_r.
      assert (E : 2 ^ (la + 1) * 2 ^ (- (la - lb - 53 + 1)) = 2 ^ 53 * 2 ^ lb).
      { rewrite <- !Z.pow_add_r by lia. f_equal. lia. }
      assert (P : 0 < 2 ^ (- (la - lb - 53 + 1))) by (apply Z.pow_pos_nonneg; lia).
      assert (P53 : 0 < 2 ^ 53) by reflexivity.
      nia.
    + rewrite (Z.max_r 0 (la - lb - 53 + 1)) by lia.
      rewrite (Z.max_l 0 (- (la - lb - 53 + 1))) by lia.
      change (2 ^ 0) with 1. rewrite Z.mul_1_r.
      assert (E : 2 ^ 53 * (2 ^ lb * 2 ^ (la - lb - 53 + 1)) = 2 ^ (la + 1)).
      { rewrite <- !Z.pow_add_r by lia. f_equal. lia. }
      assert (P : 0 < 2 ^ (la - lb - 53 + 1)) by (apply Z.pow_pos_nonneg; lia).
      assert (P53 : 0 < 2 ^ 53) by reflexivity.
      nia.
  - pose proof (Hd (la - lb - 53)) as D.
    pose proof (Z.mul_succ_div_gt (fst (scaled a b (la - lb - 53))) _ D) as G.
    set (q := fst (scaled a b (la - lb - 53)) / snd (scaled a b (la - lb - 53))) in *. nia.
Qed.

Lemma nearest_even_ge (n d K : Z) :
  0 < d -> (2 * K - 1) * d < 2 * n -> K <= nearest_even n d.
Proof.
  intros Hd H. unfold nearest_even.
  pose proof (Z.div_mod n d ltac:(lia)) as E.
  pose proof (Z.mod_pos_bound n d Hd) as B.
  set (m := n / d) in *. set (r := n mod d) in *.
  destruct (Z.ltb_spec d (2 * r)) as [L | G]; cbn [orb].
  - nia.
  - destruct ((d =? 2 * r) && Z.odd m); nia.
Qed.

Lemma nearest_even_le (n d K : Z) :
  0 < d -> 2 * n < (2 * K + 1) * d -> nearest_even n d <= K.
Proof.
  intros Hd H. unfold nearest_even.
  pose proof (Z.div_mod n d ltac:(lia)) as E.
  pose proof (Z.mod_pos_bound n d Hd) as B.
  set (m := n / d) in *. set (r := n mod d) in *.
  destruct (Z.ltb_spec d (2 * r)) as [L | G]; cbn [orb].
  - nia.
  - destruct (Z.eqb_spec d (2 * r)) as [Eq | Ne]; cbn [andb]; [destruct (Z.odd m) |]; nia.
Qed.

(** For a constant [c = M / 2^53] just below the fraction [num / D], by
    [1 / (D * 2^53)], the rounded product [n * c] has the floor of
    [n * num / D]. *)
Lemma floor_rnd_product (n M num D : Z) :
  0 < n < 2 ^ 50 -> 3 <= num <= 8 -> 0 < D -> 0 < M ->
  num * 2 ^ 53 - D * M = 1 ->
  Qfloor (rnd_pos (n * M) (2 ^ 53)) = (num * n) / D.
Proof.
  intros Hn Hnum HD HM Hc.
  assert (Ha : 0 < n * M) by nia.
  assert (Hb : 0 < 2 ^ 53) by reflexivity.
  destruct (scaled_mantissa (n * M) (2 ^ 53) Ha Hb) as [Hd Hlow].
  pose proof (scaled_mantissa_upper (n * M) (2 ^ 53) Ha Hb) as Hup.
  unfold rnd_pos. set (e := expo (n * M) (2 ^ 53)) in *.
  assert (P50 : 2 ^ 50 * 8 = 2 ^ 53) by reflexivity.
  assert (He : e <= 0).
  { destruct (Z_lt_le_dec 0 e) as [Hpos | Hle]; [exfalso | exact Hle].
    revert Hlow. unfold scaled; cbn [fst snd].
    rewrite (Z.max_r 0 e), (Z.max_l 0 (- e)) by lia. change (2 ^ 0) with 1.
    assert (2 <= 2 ^ e) by (change 2 with (2 ^ 1) at 1; apply Z.pow_le_mono_r; lia).
    assert (D * M < num * 2 ^ 53) by lia.
    assert (M < 8 * 2 ^ 53) by nia.
    change (2 ^ 52) with 4503599627370496 in *. change (2 ^ 53) with 9007199254740992 in *.
    change (2 ^ 50) with 1125899906842624 in *. nia. }
  revert Hd Hlow Hup. unfold scaled; cbn [fst snd].
  rewrite (Z.max_l 0 e), (Z.max_r 0 (- e)) by lia. change (2 ^ 0) with 1.
  rewrite Z.mul_1_r. intros _ Hlow Hup.
  assert (Pt : 1 <= 2 ^ (- e)).
  { change 1 with (2 ^ 0) at 1. apply Z.pow_le_mono_r; lia. }
  set (t := 2 ^ (- e)) in *.
  pose proof (Z.div_mod (num * n) D ltac:(lia)) as Ediv.
  pose proof (Z.mod_pos_bound (num * n) D HD) as Bmod.
  set (k := (num * n) / D) in *. set (r := (num * n) mod D) in *.
  (* D * a = (D * k + r) * 2^53 - n *)
  assert (Ea : D * (n * M) = (D * k + r) * 2 ^ 53 - n) by nia.
  set (a := n * M) in *.
  assert (Lo : k * t <= nearest_even (a * t) (2 ^ 53)).
  { apply nearest_even_ge; [reflexivity |].
    (* D * t * (2^53 * k - a) < D * 2^52 *)
    assert (G : D * (t * (2 ^ 53 * k - a)) < D * 2 ^ 52).
    { replace (D * (t * (2 ^ 53 * k - a))) with (t * (n - r * 2 ^ 53)) by nia.
      destruct (Z.eq_dec r 0) as [R0 | R1].
      - rewrite R0, Z.mul_0_l, Z.sub_0_r.
        (* n * t * D * M < D * 2^106 and D * M >= 2^54 *)
        assert (DM : 2 ^ 54 <= D * M).
        { change (2 ^ 54) with (2 * 2 ^ 53). lia. }
        assert (U : D * (a * t) < D * (2 ^ 53 * 2 ^ 53)) by (apply Z.mul_lt_mono_pos_l; lia).
        assert (V : (n * t) * 2 ^ 54 <= (n * t) * (D * M)).
        { apply Z.mul_le_mono_nonneg_l; [nia | exact DM]. }
        replace (D * (a * t)) with ((n * t) * (D * M)) in U by (unfold a; ring).
        change (2 ^ 54) with (4 * 2 ^ 52) in V.
        change (2 ^ 53 * 2 ^ 53) with (4 * 2 ^ 52 * 2 ^ 52) in U.
        assert (P52 : 0 < 2 ^ 52) by reflexivity. nia.
      - assert (n - r * 2 ^ 53 < 0).
        { assert (1 * 2 ^ 53 <= r * 2 ^ 53) by (apply Z.mul_le_mono_nonneg_r; lia).
          change (2 ^ 53) with (8 * 2 ^ 50) in *. lia. }
        assert (P52 : 0 < 2 ^ 52) by reflexivity. nia. }
    apply Z.mul_lt_mono_pos_l in G; [| exact HD].
    change (2 ^ 53) with (2 * 2 ^ 52) in *. nia. }
  assert (Hi : nearest_even (a * t) (2 ^ 53) <= (k + 1) * t - 1).
  { apply nearest_even_le; [reflexivity |].
    (* 2 * t > D, and D * (2^53 * (k + 1) - a) > 2^53 *)
    assert (T : D < 2 * t).
    { assert (U : D * (2 ^ 52 * 2 ^ 53) <= D * (a * t)) by (apply Z.mul_le_mono_nonneg_l; lia).
      replace (D * (a * t)) with ((D * a) * t) in U by ring.
      assert (V : D * a < num * n * 2 ^ 53) by lia.
      assert (W : (D * a) * t < (num * n * 2 ^ 53) * t) by (apply Z.mul_lt_mono_pos_r; lia).
      assert (X : num * n <= 2 ^ 53).
      { change (2 ^ 53) with (8 * 2 ^ 50). nia. }
      assert (Y : (num * n * 2 ^ 53) * t <= (2 ^ 53 * 2 ^ 53) * t).
      { apply Z.mul_le_mono_nonneg_r; [lia |]. apply Z.mul_le_mono_nonneg_r; lia. }
      change (2 ^ 53 * 2 ^ 53) with (2 * (2 ^ 52 * 2 ^ 53)) in Y.
      assert (P : 0 < 2 ^ 52 * 2 ^ 53) by reflexivity. nia. }
    assert (G : D * 2 ^ 53 < D * (2 * (t * (2 ^ 53 * (k + 1) - a)))).
    { replace (D * (2 * (t * (2 ^ 53 * (k + 1) - a))))
        with (2 * t * ((D - r) * 2 ^ 53 + n)) by nia.
      assert (1 * 2 ^ 53 <= (D - r) * 2 ^ 53) by (apply Z.mul_le_mono_nonneg_r; lia).
      assert (P53 : 0 < 2 ^ 53) by reflexivity. nia. }
    apply Z.mul_lt_mono_pos_l in G; [| exact HD].
    nia. }
  rewrite of_mant_value. rewrite (Z.max_l 0 e), (Z.max_r 0 (- e)) by lia.
  change (2 ^ 0) with 1. rewrite Z.mul_1_r. fold t.
  unfold Qfloor. rewrite Z2Pos.id by lia.
  set (m := nearest_even (a * t) (2 ^ 53)) in *.
  symmetry. apply Z.div_unique with (r := m - k * t); lia.
Qed.
End Exact.

Section Canonical.
Import Binary64.

Lemma rnd_reduced (q : Q) : Qred (rnd q) = rnd q.
Proof.
  assert (R : forall x, Qred (Qred x) = Qred x).
  { intros x. apply Qred_complete, Qred_correct. }
  unfold rnd. destruct (Qnum q); [reflexivity | apply R |].
  rewrite Qred_opp. f_equal. apply R.
Qed.

Lemma rnd_integer_eq (v : Z) : - 2 ^ 53 < v < 2 ^ 53 -> rnd (inject_Z v) = inject_Z v.
Proof.
  intros H. rewrite <- rnd_reduced.
  rewrite (Qred_complete _ _ (rnd_integer v H)).
  apply Qred_identity. cbn. apply Z.gcd_1_r.
Qed.

Lemma of_nat_exact (n : nat) : Z.of_nat n < 2 ^ 53 -> of_nat n = inject_Z (Z.of_nat n).
Proof. intros H. apply rnd_integer_eq. lia. Qed.
End Canonical.

Section HexDigest.
Import JS.

Lemma hexdigit_cases (d : Z) :
  nibble d ->
  digit16 (hexdigit d) = Some d /\ is_space (hexdigit d) = false /\
  hexdigit d <> "-"%char /\ hexdigit d <> "+"%char /\
  hexdigit d <> "x"%char /\ hexdigit d <> "X"%char.
Proof.
  intros H.
  assert (C : d = 0 \/ d = 1 \/ d = 2 \/ d = 3 \/ d = 4 \/ d = 5 \/ d = 6 \/ d = 7 \/ d = 8 \/
              d = 9 \/ d = 10 \/ d = 11 \/ d = 12 \/ d = 13 \/ d = 14 \/ d = 15)
    by (unfold nibble in H; lia).
  repeat (destruct C as [-> | C]); try subst d;
    (repeat split; try reflexivity; intros E; vm_compute in E; discriminate E).
Qed.

Lemma digits16_hex (ds : list Z) :
  Forall nibble ds ->
  forall acc n,
    digits16 (map hexdigit ds) acc n
    = (fold_left (fun a c => 16 * a + default 0 (digit16 c)) (map hexdigit ds) acc,
       (n + length ds)%nat).
Proof.
  induction 1 as [| d ds Hd _ IH]; intros acc n; cbn [map digits16 fold_left length].
  - f_equal. lia.
  - destruct (hexdigit_cases d Hd) as [-> _]. change (default 0 (Some d)) with d.
    rewrite IH. f_equal. lia.
Qed.

Lemma hex_value_bound (ds : list Z) :
  Forall nibble ds ->
  forall acc, 0 <= acc ->
    acc * 16 ^ Z.of_nat (length ds)
    <= fold_left (fun a c => 16 * a + default 0 (digit16 c)) (map hexdigit ds) acc
    < (acc + 1) * 16 ^ Z.of_nat (length ds).
Proof.
  induction 1 as [| d ds Hd _ IH]; intros acc Hacc; cbn [map fold_left length].
  - change (16 ^ Z.of_nat 0) with 1. lia.
  - destruct (hexdigit_cases d Hd) as [-> _]. change (default 0 (Some d)) with d.
    rewrite Nat2Z.inj_succ, Z.pow_succ_r by lia.
    unfold nibble in Hd. specialize (IH (16 * acc + d) ltac:(lia)).
    assert (P : 0 < 16 ^ Z.of_nat (length ds)) by (apply Z.pow_pos_nonneg; lia).
    set (p := 16 ^ Z.of_nat (length ds)) in *.
    assert (0 <= d * p) by (apply Z.mul_nonneg_nonneg; lia).
    assert (d * p <= 15 * p) by (apply Z.mul_le_mono_nonneg_r; lia).
    lia.
Qed.

Lemma is_hex_digits (ds : list Z) : Forall nibble ds -> is_hex (map hexdigit ds).
Proof.
  intros H. unfold is_hex. rewrite Forall_map. eapply Forall_impl; [exact H |].
  intros d Hd. cbn. destruct (hexdigit_cases d Hd) as [-> _]. eexists; reflexivity.
Qed.

(** [parseInt(s, 16)] of a string of lower-case hexadecimal digits. *)
Lemma parseInt16_hex (ds : list Z) :
  Forall nibble ds -> ds <> [] ->
  parseInt16 (string_of_list_ascii (map hexdigit ds))
  = Some (Binary64.rnd (inject_Z (unsigned_of_hex (map hexdigit ds)))).
Proof.
  intros H Hne. unfold parseInt16. rewrite list_ascii_of_string_of_list_ascii.
  destruct ds as [| d ds]; [congruence |].
  inversion H as [| ? ? Hd Hds]; subst.
  destruct (hexdigit_cases d Hd) as (Dd & Sd & Md & Pd & _).
  assert (E1 : skip_spaces (map hexdigit (d :: ds)) = map hexdigit (d :: ds)).
  { cbn [map skip_spaces]. rewrite Sd. reflexivity. }
  rewrite E1.
  assert (E2 : (match map hexdigit (d :: ds) with
                | "-"%char :: l' => (true, l')
                | "+"%char :: l' => (false, l')
                | _ => (false, map hexdigit (d :: ds))
                end) = (false, map hexdigit (d :: ds))).
  { cbn [map]. destruct (ascii_dec (hexdigit d) "-") as [E | _]; [contradiction |].
    destruct (ascii_dec (hexdigit d) "+") as [E | _]; [contradiction |].
    destruct (hexdigit d) as [[] [] [] [] [] [] [] []]; try reflexivity; congruence. }
  rewrite E2.
  assert (E3 : strip_0x (map hexdigit (d :: ds)) = map hexdigit (d :: ds)).
  { destruct ds as [| d2 ds]; cbn [map].
    - destruct (hexdigit d) as [[] [] [] [] [] [] [] []]; reflexivity.
    - inversion Hds as [| ? ? Hd2 _]; subst.
      destruct (hexdigit_cases d2 Hd2) as (_ & _ & _ & _ & X1 & X2).
      unfold strip_0x.
      destruct (hexdigit d) as [[] [] [] [] [] [] [] []]; try reflexivity;
        destruct (hexdigit d2) as [[] [] [] [] [] [] [] []]; try reflexivity; congruence. }
  rewrite E3. rewrite (digits16_hex (d :: ds) H). cbn [length Nat.add]. reflexivity.
Qed.

Lemma hex_of_word_digits (w : Z) :
  exists ds, length ds = 16%nat /\ Forall nibble ds /\ hex_of_word w = map hexdigit ds.
Proof.
  exists (map (fun i => (w / 16 ^ Z.of_nat i) mod 16) (rev (seq 0 16))).
  split; [reflexivity |]. split.
  - rewrite Forall_map. apply Forall_forall. intros i _. cbn. unfold nibble.
    apply Z.mod_pos_bound. lia.
  - unfold hex_of_word. rewrite map_map. reflexivity.
Qed.

(** The first 13 characters of a hex digest are 13 hexadecimal digits. *)
Lemma digest_prefix (key message : string) :
  exists ds, length ds = 13%nat /\ Forall nibble ds /\
    take 13 (list_ascii_of_string (createHmac_sha512_hex key message)) = map hexdigit ds.
Proof.
  unfold createHmac_sha512_hex. rewrite list_ascii_of_string_of_list_ascii.
  set (s := HMAC.hmac_state _ _).
  destruct (hex_of_word_digits (SHA512.sa s)) as (ds & L & F & E).
  exists (take 13 ds). split; [rewrite length_take; lia |].
  split; [apply Forall_take; exact F |].
  unfold hex_of_state, SHA512.state_words. cbn [flat_map].
  rewrite E. rewrite take_app_le by (rewrite length_map; lia).
  rewrite firstn_map. reflexivity.
Qed.
End HexDigest.

Section SortFacts.
Context {A : Type} (comparefn : A -> A -> option Q).

Lemma sort_insert_perm (x : A) (l : list A) : JS.sort_insert comparefn x l ≡ₚ x :: l.
Proof.
  induction l as [| y l IH]; cbn [JS.sort_insert]; [reflexivity |].
  destruct (JS.sorts_after comparefn x y); [| reflexivity].
  rewrite IH. apply Permutation_swap.
Qed.

Lemma array_sort_perm (l : list A) : JS.array_sort comparefn l ≡ₚ l.
Proof.
  induction l as [| x l IH]; [reflexivity |].
  unfold JS.array_sort in *. cbn [foldr]. rewrite sort_insert_perm, IH. reflexivity.
Qed.

(** A comparator that orders by a key, descending, on elements that carry a
    position: the sort puts greater keys first and keeps equal keys in the
    order of their positions. *)
Variables (key : A -> Q) (pos : A -> nat) (dom : A -> Prop).
Hypothesis comparefn_key :
  forall x y, dom x -> dom y -> (JS.sorts_after comparefn x y = true <-> (key x < key y)%Q).

Definition before (x y : A) : Prop :=
  (key y < key x)%Q \/ ((key x == key y)%Q /\ (pos x < pos y)%nat).

Lemma sort_insert_sorted (x : A) (l : list A) :
  dom x -> Forall dom l -> Forall (fun y => (pos x < pos y)%nat) l ->
  StronglySorted before l -> StronglySorted before (JS.sort_insert comparefn x l).
Proof.
  intros Dx Dl Px S. induction S as [| y l S IH Hy]; cbn [JS.sort_insert].
  - constructor; constructor.
  - inversion Dl as [| ? ? Dy Dl']; subst. inversion Px as [| ? ? Pxy Px']; subst.
    destruct (JS.sorts_after comparefn x y) eqn:E.
    + apply (comparefn_key x y Dx Dy) in E.
      constructor; [apply IH; assumption |].
      rewrite sort_insert_perm. constructor; [left; exact E | exact Hy].
    + assert (G : (key y <= key x)%Q).
      { apply Qnot_lt_le. intros L. apply (comparefn_key x y Dx Dy) in L. congruence. }
      constructor; [constructor; assumption |].
      constructor.
      * destruct (Qle_lt_or_eq _ _ G) as [L | Eq]; [left; exact L | right].
        split; [symmetry; exact Eq | exact Pxy].
      * rewrite Forall_forall in Hy, Px'. apply Forall_forall. intros z Hz.
        destruct (Hy z Hz) as [L | [Eq Pz]].
        -- left. eapply Qlt_le_trans; eassumption.
        -- destruct (Qle_lt_or_eq _ _ G) as [L | Eq'].
           ++ left. rewrite <- Eq. exact L.
           ++ right. split; [rewrite <- Eq'; exact Eq | apply Px'; exact Hz].
Qed.

Lemma array_sort_sorted (l : list A) :
  Forall dom l -> StronglySorted (fun x y => (pos x < pos y)%nat) l ->
  StronglySorted before (JS.array_sort comparefn l).
Proof.
  intros Dl S. induction S as [| x l S IH Hx].
  - constructor.
  - inversion Dl as [| ? ? Dx Dl']; subst.
    change (JS.array_sort comparefn (x :: l))
      with (JS.sort_insert comparefn x (JS.array_sort comparefn l)).
    apply sort_insert_sorted; [assumption | | | apply IH; assumption].
    + rewrite array_sort_perm. assumption.
    + rewrite array_sort_perm. assumption.
Qed.

End SortFacts.

(** ** Facts about [hmacFloat] *)

Lemma Math_pow_16_13_value : Math_pow_16_13 = inject_Z (16 ^ 13).
Proof. vm_compute. reflexivity. Qed.

Lemma hmacFloat_of_digest (h : string) :
  (exists ds, length ds = 13%nat /\ Forall nibble ds /\
              take 13 (list_ascii_of_string h) = map JS.hexdigit ds) ->
  exists q,
    match JS.parseInt16 (JS.slice0 13 h) with
    | Some v => Some (Binary64.fdiv v Math_pow_16_13)
    | None => None
    end = Some q /\
    (q == unsigned_of_hex (take 13 (list_ascii_of_string h)) # Z.to_pos (16 ^ 13))%Q /\
    0 <= unsigned_of_hex (take 13 (list_ascii_of_string h)) < 16 ^ 13.
Proof.
  intros (ds & L & F & E). unfold JS.slice0. rewrite E.
  assert (B : 0 <= unsigned_of_hex (map JS.hexdigit ds) < 16 ^ 13).
  { unfold unsigned_of_hex.
    pose proof (hex_value_bound ds F 0 (Z.le_refl 0)) as H. rewrite L in H.
    change (Z.of_nat 13) with 13 in H. lia. }
  rewrite parseInt16_hex by (try assumption; intros ->; discriminate).
  generalize dependent (unsigned_of_hex (map JS.hexdigit ds)). intros v B.
  assert (V : - 2 ^ 53 < v < 2 ^ 53) by (change (16 ^ 13) with (2 ^ 52) in B; lia).
  rewrite (rnd_integer_eq v V), Math_pow_16_13_value.
  eexists. split; [reflexivity |]. split; [| exact B].
  unfold Binary64.fdiv.
  replace (inject_Z v / inject_Z (16 ^ 13))%Q with (v * 1 # Z.to_pos (2 ^ 52)) by reflexivity.
  rewrite Z.mul_1_r. apply rnd_exact; lia.
Qed.

Lemma hmacFloat_value (serverSeed message : string) :
  exists q,
    hmacFloat serverSeed message = Some q /\
    (q == unsigned_of_hex
            (take 13 (list_ascii_of_string (JS.createHmac_sha512_hex serverSeed message)))
          # Z.to_pos (16 ^ 13))%Q /\
    0 <= unsigned_of_hex
           (take 13 (list_ascii_of_string (JS.createHmac_sha512_hex serverSeed message)))
      < 16 ^ 13.
Proof. exact (hmacFloat_of_digest _ (digest_prefix serverSeed message)). Qed.

Lemma hmacFloat_range (serverSeed message : string) :
  exists q, hmacFloat serverSeed message = Some q /\ (0 <= q < 1)%Q.
Proof.
  destruct (hmacFloat_value serverSeed message) as (q & E & V & B).
  exists q. split; [exact E |]. rewrite V. unfold Qle, Qlt; cbn [Qnum Qden].
  rewrite Z2Pos.id by reflexivity. lia.
Qed.

(** ** Facts about the ranking *)

Lemma length_assignFloats (g : Giveaway) : length (assignFloats g) = length (entries g).
Proof. unfold assignFloats. apply length_imap. Qed.

Lemma lookup_assignFloats (g : Giveaway) (i : nat) :
  assignFloats g !! i
  = set_pfFloat
      (hmacFloat (serverSeed g)
         (fairnessMessage (seedText (clientSeed1 g)) (seedText (clientSeed2 g)) i))
      <$> entries g !! i.
Proof. unfold assignFloats. rewrite list_lookup_imap. reflexivity. Qed.

Lemma pf_assignFloats (g : Giveaway) (i : nat) :
  pf (assignFloats g) i
  = if decide (i < length (entries g))%nat
    then hmacFloat (serverSeed g)
           (fairnessMessage (seedText (clientSeed1 g)) (seedText (clientSeed2 g)) i)
    else None.
Proof.
  unfold pf. rewrite lookup_assignFloats. destruct (decide _) as [H | H].
  - apply lookup_lt_is_Some in H as [e ->]. reflexivity.
  - rewrite lookup_ge_None_2 by lia. reflexivity.
Qed.

Lemma pf_assignFloats_Some (g : Giveaway) (i : nat) :
  (i < length (entries g))%nat -> is_Some (pf (assignFloats g) i).
Proof.
  intros H. rewrite pf_assignFloats. rewrite decide_True by assumption.
  destruct (hmacFloat_range (serverSeed g)
              (fairnessMessage (seedText (clientSeed1 g)) (seedText (clientSeed2 g)) i))
    as (q & -> & _).
  eexists; reflexivity.
Qed.

Lemma byFloatDesc_key (store : list Entry) (x y : nat) :
  is_Some (pf store x) -> is_Some (pf store y) ->
  JS.sorts_after (byFloatDesc store) x y = true <-> (floatOf store x < floatOf store y)%Q.
Proof.
  intros [fx Ex] [fy Ey]. unfold JS.sorts_after, byFloatDesc, floatOf. rewrite Ex, Ey.
  change (default 0%Q (Some fx)) with fx. change (default 0%Q (Some fy)) with fy.
  unfold Binary64.fsub. destruct (rnd_sign (fy - fx)) as (P & N & Z0).
  rewrite negb_true_iff. split.
  - intros H. destruct (Qlt_le_dec fx fy) as [L | G]; [exact L | exfalso].
    assert (R : (Binary64.rnd (fy - fx) <= 0)%Q).
    { destruct (Qle_lt_or_eq _ _ G) as [L | Eq].
      - apply Qlt_le_weak, N. rewrite <- (Qplus_opp_r fx).
        apply Qplus_lt_l. exact L.
      - rewrite Z0; [apply Qle_refl |]. rewrite Eq. apply Qplus_opp_r. }
    apply Qle_bool_iff in R. congruence.
  - intros L. destruct (Qle_bool _ 0) eqn:E; [exfalso | reflexivity].
    apply Qle_bool_iff in E.
    assert (R : (0 < Binary64.rnd (fy - fx))%Q).
    { apply P. rewrite <- (Qplus_opp_r fx). apply Qplus_lt_l. exact L. }
    apply (Qlt_irrefl 0). eapply Qlt_le_trans; eassumption.
Qed.

Lemma ranksBefore_before (store : list Entry) (i j : nat) :
  is_Some (pf store i) -> is_Some (pf store j) ->
  ranksBefore store i j <-> before (floatOf store) (fun k => k) i j.
Proof.
  intros [fx Ex] [fy Ey]. unfold ranksBefore, before, floatOf. rewrite Ex, Ey. reflexivity.
Qed.

Lemma ranksBefore_Some (store : list Entry) (i j : nat) :
  ranksBefore store i j -> is_Some (pf store i) /\ is_Some (pf store j).
Proof.
  unfold ranksBefore. destruct (pf store i), (pf store j); try contradiction.
  intros _. split; eexists; reflexivity.
Qed.

Lemma StronglySorted_impl {A} (R S : A -> A -> Prop) (P : A -> Prop) (l : list A) :
  (forall x y, P x -> P y -> R x y -> S x y) -> Forall P l ->
  StronglySorted R l -> StronglySorted S l.
Proof.
  intros H F Srt. induction Srt as [| x l Srt IH Hx]; constructor.
  - apply IH. inversion F; assumption.
  - inversion F as [| ? ? Px Pl]; subst. rewrite Forall_forall in *.
    intros y Hy. apply H; auto.
Qed.

Lemma seq_sorted (s n : nat) : StronglySorted (fun x y : nat => (x < y)%nat) (seq s n).
Proof.
  revert s. induction n as [| n IH]; intros s; cbn [seq]; constructor; [apply IH |].
  apply Forall_forall. intros y Hy. apply elem_of_seq in Hy. lia.
Qed.

Section Ranking.
Variable store : list Entry.
Hypothesis floats : forall i, (i < length store)%nat -> is_Some (pf store i).

Lemma ranking_perm : ranking store ≡ₚ seq 0 (length store).
Proof. apply array_sort_perm. Qed.

Lemma ranking_dom : Forall (fun i => is_Some (pf store i)) (ranking store).
Proof.
  rewrite ranking_perm. apply Forall_forall. intros i Hi.
  apply elem_of_seq in Hi. apply floats. lia.
Qed.

Lemma ranking_sorted : StronglySorted (ranksBefore store) (ranking store).
Proof.
  apply StronglySorted_impl
    with (R := before (floatOf store) (fun k => k)) (P := fun i => is_Some (pf store i)).
  - intros x y Px Py. apply ranksBefore_before; assumption.
  - apply ranking_dom.
  - apply array_sort_sorted with (dom := fun i => is_Some (pf store i)).
    + intros x y. apply byFloatDesc_key.
    + apply Forall_forall. intros i Hi. apply elem_of_seq in Hi.
      apply floats. lia.
    + apply seq_sorted.
Qed.

End Ranking.

(** ** Facts about the counts *)

Lemma fmul_of_nat_upper (n : nat) (c b : Q) :
  (0 <= c)%Q -> (c * (ulp_factor * ulp_factor) <= b)%Q ->
  (Binary64.fmul (Binary64.of_nat n) c <= inject_Z (Z.of_nat n) * b)%Q.
Proof.
  intros Hc Hb.
  assert (Hn : (0 <= inject_Z (Z.of_nat n))%Q) by (unfold Qle; cbn; lia).
  pose proof (rnd_upper _ Hn) as U1. fold ulp_factor in U1.
  pose proof (rnd_nonneg _ Hn) as N1.
  unfold Binary64.fmul, Binary64.of_nat in *.
  set (x := Binary64.rnd (inject_Z (Z.of_nat n))) in *.
  assert (Hxc : (0 <= x * c)%Q) by (apply Qmult_le_0_compat; assumption).
  pose proof (rnd_upper _ Hxc) as U2. fold ulp_factor in U2.
  eapply Qle_trans; [exact U2 |].
  assert (Hu : (0 <= ulp_factor)%Q) by (unfold Qle; cbn; lia).
  eapply Qle_trans with (inject_Z (Z.of_nat n) * ulp_factor * c * ulp_factor)%Q.
  - apply Qmult_le_compat_r; [| exact Hu]. apply Qmult_le_compat_r; assumption.
  - assert (EQ : (inject_Z (Z.of_nat n) * ulp_factor * c * ulp_factor
                  == inject_Z (Z.of_nat n) * (c * (ulp_factor * ulp_factor)))%Q) by ring.
    rewrite EQ.
    rewrite (Qmult_comm _ (c * _)), (Qmult_comm _ b).
    apply Qmult_le_compat_r; assumption.
Qed.

Lemma Qfloor_upper (x : Q) (n : Z) : (x <= inject_Z n)%Q -> Qfloor x <= n.
Proof. intros H. rewrite <- (Qfloor_Z n). apply Qfloor_resp_le. exact H. Qed.

Lemma closed_Qle (x y : Q) : Qle_bool x y = true -> (x <= y)%Q.
Proof. apply Qle_bool_imp_le. Qed.

Lemma keepCount_bounds (p : Q) (n : nat) :
  p ∈ rounds -> (1 <= n)%nat -> 1 <= keepCount p n <= Z.of_nat n.
Proof.
  intros Hp Hn. unfold keepCount. split; [apply Z.le_max_l |].
  apply Z.max_lub; [lia |]. apply Qfloor_upper.
  rewrite <- (Qmult_1_r (inject_Z (Z.of_nat n))).
  unfold rounds in Hp. repeat (apply elem_of_cons in Hp as [-> | Hp]);
    [| | | apply elem_of_nil in Hp; contradiction];
    (apply fmul_of_nat_upper; apply closed_Qle; vm_compute; reflexivity).
Qed.

Lemma toEliminate_bounds (n : nat) : (2 <= n)%nat -> 1 <= toEliminate n <= Z.of_nat n - 1.
Proof.
  intros Hn. unfold toEliminate. split; [apply Z.le_max_l |].
  apply Z.max_lub; [lia |].
  assert (H : (Binary64.fmul (Binary64.of_nat n) (Binary64.lit (12 # 100))
               <= inject_Z (Z.of_nat n) * (1 # 2))%Q).
  { apply fmul_of_nat_upper; apply closed_Qle; vm_compute; reflexivity. }
  apply Qfloor_resp_le in H. etransitivity; [exact H |].
  unfold Qfloor, Qmult, inject_Z; cbn [Qnum Qden]. 
  change (Z.pos (1 * 2)) with 2. apply Z.div_le_upper_bound; lia.
Qed.

Lemma finalKeepCount_value (n : nat) :
  (2 <= n)%nat -> finalKeepCount n = Z.of_nat n - toEliminate n /\ 1 <= finalKeepCount n < Z.of_nat n.
Proof.
  intros Hn. pose proof (toEliminate_bounds n Hn). unfold finalKeepCount. lia.
Qed.

Lemma rnd_of_positive (a : Z) (b : positive) :
  0 < a -> Binary64.rnd (a # b) = Binary64.rnd_pos a (Z.pos b).
Proof. intros H. unfold Binary64.rnd. cbn [Qnum Qden]. destruct a; try lia. reflexivity. Qed.

Lemma floor_fmul_of_nat (n : nat) (M num D : Z) :
  Z.of_nat n < 2 ^ 50 -> 3 <= num <= 8 -> 0 < D -> 0 < M ->
  num * 2 ^ 53 - D * M = 1 ->
  Qfloor (Binary64.fmul (Binary64.of_nat n) (M # Z.to_pos (2 ^ 53))) = (num * Z.of_nat n) / D.
Proof.
  intros Hn Hnum HD HM Hc.
  rewrite of_nat_exact by (change (2 ^ 53) with (8 * 2 ^ 50); lia).
  unfold Binary64.fmul, Qmult, inject_Z. cbn [Qnum Qden].
  destruct n as [| n].
  - cbn. symmetry. rewrite Z.mul_0_r. apply Z.div_0_l. lia.
  - rewrite rnd_of_positive by nia.
    change (Z.pos (1 * Z.to_pos (2 ^ 53))) with (2 ^ 53).
    apply floor_rnd_product; try assumption. lia.
Qed.


Lemma keepCount_exact_round2 (n : nat) :
  Z.of_nat n < 2 ^ 50 -> keepCount (Binary64.lit (40 # 100)) n = exactKeepCount (40 # 100) n.
Proof.
  intros Hn. unfold keepCount, exactKeepCount. f_equal.
  replace (Binary64.fsub 1 (Binary64.lit (40 # 100)))
    with (5404319552844595 # Z.to_pos (2 ^ 53)) by (vm_compute; reflexivity).
  rewrite (floor_fmul_of_nat n 5404319552844595 3 5) by (try assumption; lia).
  unfold Qfloor, Qmult, Qminus, Qplus, Qopp, inject_Z. cbn [Qnum Qden].
  change (Z.pos (1 * (1 * 100))) with (20 * 5).
  replace (Z.of_nat n * (1 * 100 + Z.opp 40 * 1)) with (20 * (3 * Z.of_nat n)) by ring.
  rewrite Z.div_mul_cancel_l by lia. reflexivity.
Qed.

Lemma keepCount_exact_round3 (n : nat) :
  Z.of_nat n < 2 ^ 50 -> keepCount (Binary64.lit (25 # 100)) n = exactKeepCount (25 # 100) n.
Proof.
  intros Hn. unfold keepCount, exactKeepCount. f_equal.
  replace (Binary64.fsub 1 (Binary64.lit (25 # 100))) with (3 # Z.to_pos (2 ^ 2))
    by (vm_compute; reflexivity).
  rewrite of_nat_exact by (change (2 ^ 53) with (8 * 2 ^ 50); lia).
  unfold Binary64.fmul, Qmult, inject_Z. cbn [Qnum Qden].
  change (1 * Z.to_pos (2 ^ 2))%positive with (Z.to_pos (2 ^ 2)).
  rewrite (Qfloor_comp _ _ (rnd_exact (Z.of_nat n * 3) 2 ltac:(change (2 ^ 53) with (8 * 2 ^ 50); lia) ltac:(lia))).
  unfold Qfloor, Qminus, Qplus, Qopp. cbn [Qnum Qden].
  change (Z.pos (Z.to_pos (2 ^ 2))) with 4. change (Z.pos (1 * (1 * 100))) with (25 * 4).
  replace (Z.of_nat n * (1 * 100 + Z.opp 25 * 1)) with (25 * (Z.of_nat n * 3)) by ring.
  rewrite Z.div_mul_cancel_l by lia. reflexivity.
Qed.

(** ** Facts about the rounds and the final phase *)

Lemma round_partition (p : Q) (cur : list nat) :
  remaining (playRound p cur) ++ eliminated (playRound p cur) = cur.
Proof. cbn [playRound remaining eliminated]. apply take_drop. Qed.

Lemma pass_partition (cur : list nat) :
  remaining (playFinalPass cur) ++ eliminated (playFinalPass cur) = cur.
Proof. cbn [playFinalPass remaining eliminated]. apply take_drop. Qed.

Lemma head_take {A} (k : nat) (l : list A) : (1 <= k)%nat -> head (take k l) = head l.
Proof. destruct k; [lia |]. destruct l; reflexivity. Qed.

Lemma round_head (p : Q) (cur : list nat) : head (remaining (playRound p cur)) = head cur.
Proof.
  cbn [playRound remaining]. apply head_take. unfold keepCount. lia.
Qed.

Lemma pass_head (cur : list nat) : head (remaining (playFinalPass cur)) = head cur.
Proof.
  cbn [playFinalPass remaining]. apply head_take. unfold finalKeepCount. lia.
Qed.

Lemma playRounds_head (ps : list Q) (cur : list nat) :
  head (snd (playRounds ps cur)) = head cur.
Proof.
  revert cur. induction ps as [| p ps IH]; intros cur; cbn [playRounds snd]; [reflexivity |].
  rewrite IH. apply round_head.
Qed.

Lemma playRounds_chained (ps : list Q) (cur : list nat) :
  chained cur (fst (playRounds ps cur)).
Proof.
  revert cur. induction ps as [| p ps IH]; intros cur; cbn [playRounds fst chained]; [exact I |].
  split; [apply round_partition | apply IH].
Qed.

Lemma playRounds_map (ps : list Q) (cur : list nat) :
  length (fst (playRounds ps cur)) = length ps.
Proof.
  revert cur. induction ps as [| p ps IH]; intros cur; cbn [playRounds fst length]; [reflexivity |].
  f_equal. apply IH.
Qed.

Lemma finalPhase_step (cur : list nat) :
  finalPhase cur
  = if decide (1 < length cur)%nat
    then (playFinalPass cur :: fst (finalPhase (remaining (playFinalPass cur))),
          snd (finalPhase (remaining (playFinalPass cur))))
    else ([], cur).
Proof.
  rewrite finalPhase_equation_1. destruct (decide (1 < length cur)%nat); reflexivity.
Qed.

(** Induction along the passes of the loop. *)
Lemma finalPhase_induction (P : list nat -> list RoundResult * list nat -> Prop) :
  (forall cur, ~ (1 < length cur)%nat -> P cur ([], cur)) ->
  (forall cur, (1 < length cur)%nat ->
               P (remaining (playFinalPass cur)) (finalPhase (remaining (playFinalPass cur))) ->
               P cur (playFinalPass cur :: fst (finalPhase (remaining (playFinalPass cur))),
                      snd (finalPhase (remaining (playFinalPass cur))))) ->
  forall cur, P cur (finalPhase cur).
Proof.
  intros Hstop Hpass cur.
  induction cur as [cur IH] using (induction_ltof1 _ (@length nat)). unfold ltof in IH.
  rewrite finalPhase_step. destruct (decide (1 < length cur)%nat) as [H | H].
  - apply Hpass; [exact H |]. apply IH. apply finalPass_decreases. exact H.
  - apply Hstop. exact H.
Qed.

Lemma finalPhase_head (cur : list nat) : head (snd (finalPhase cur)) = head cur.
Proof.
  apply (finalPhase_induction (fun cur r => head (snd r) = head cur)); clear cur.
  - reflexivity.
  - intros cur _ IH. cbn [snd]. rewrite IH. apply pass_head.
Qed.

Lemma head_nonempty {A} (l : list A) : l <> [] <-> is_Some (head l).
Proof. destruct l; cbn; split; intros H; try congruence; eauto. destruct H; discriminate. Qed.



Lemma pass_counts (cur : list nat) : (1 < length cur)%nat -> pass_ok (playFinalPass cur).
Proof.
  intros H. unfold pass_ok. rewrite <- length_app, pass_partition.
  destruct (finalKeepCount_value (length cur)) as [E B]; [lia |].
  pose proof (toEliminate_bounds (length cur) ltac:(lia)) as T.
  cbn [playFinalPass remaining eliminated]. rewrite length_take, length_drop. lia.
Qed.


Lemma playRound_ok (p : Q) (cur : list nat) :
  p ∈ rounds -> cur <> [] -> round_ok p cur (playRound p cur).
Proof.
  intros Hp Hne. unfold round_ok. cbn [playRound remaining eliminated].
  assert (1 <= length cur)%nat by (destruct cur; cbn; [congruence | lia]).
  pose proof (keepCount_bounds p (length cur) Hp ltac:(lia)) as B.
  rewrite length_take, length_drop. repeat split; lia.
Qed.

Lemma round_nonempty (p : Q) (cur : list nat) : cur <> [] -> remaining (playRound p cur) <> [].
Proof.
  intros H. apply head_nonempty. rewrite round_head. apply head_nonempty. exact H.
Qed.

Lemma exact_below_90 :
  forallb (fun n =>
             forallb (fun i => keepCount (nth i rounds 0%Q) n =? exactKeepCount (nth i exactRounds 0%Q) n)
                     (seq 0 3))
          (seq 0 90) = true.
Proof. vm_compute. reflexivity. Qed.

Lemma round_prefix (p : Q) (cur : list nat) : remaining (playRound p cur) `prefix_of` cur.
Proof. exists (eliminated (playRound p cur)). symmetry. apply round_partition. Qed.


Lemma playRounds_prefix (ps : list Q) (cur : list nat) :
  snd (playRounds ps cur) `prefix_of` cur /\
  Forall (fun r => remaining r `prefix_of` cur) (fst (playRounds ps cur)).
Proof.
  revert cur. induction ps as [| p ps IH]; intros cur; cbn [playRounds fst snd].
  - split; [reflexivity | constructor].
  - destruct (IH (remaining (playRound p cur))) as [H1 H2].
    pose proof (round_prefix p cur) as P. split; [etransitivity; eassumption |].
    constructor; [exact P |].
    eapply Forall_impl; [exact H2 |]. intros r Hr. cbv beta in Hr. etransitivity; eassumption.
Qed.



Lemma chained_nonempty (cur : list nat) (rs : list RoundResult) :
  chained cur rs -> Forall (fun r => head (remaining r) = head cur) rs ->
  cur <> [] -> Forall (fun r => remaining r <> []) rs.
Proof.
  intros _ H Hne. eapply Forall_impl; [exact H |]. intros r Hr. cbv beta in Hr.
  apply head_nonempty. rewrite Hr. apply head_nonempty. exact Hne.
Qed.

Lemma prefix_head (l1 l2 : list nat) : l1 `prefix_of` l2 -> l1 <> [] -> head l1 = head l2.
Proof. intros [k ->] H. destruct l1; [congruence | reflexivity]. Qed.





Lemma survivors_head (sorted : list nat) : head (survivors sorted) = head sorted.
Proof. unfold survivors. rewrite finalPhase_head. apply playRounds_head. Qed.


(** ** Facts about the join task *)





(** ** Facts about the interleaved handlers *)


Lemma steps_cons (st : State) (ev : Event) (evs : list Event) :
  steps st (ev :: evs) = steps (fst (step st ev)) evs.
Proof. reflexivity. Qed.




Lemma rows_assignFloats (g : Giveaway) : map rowOf (assignFloats g) = map rowOf (entries g).
Proof.
  apply list_eq. intros i. rewrite !list_lookup_fmap, lookup_assignFloats.
  destruct (entries g !! i); reflexivity.
Qed.

Lemma runStart_phases (pl : Platform) (g : Giveaway) :
  runStart pl g
  = if seedsMissing g then (Threw SeedsMissing, g)
    else match fetched pl with
         | Some e => (Threw e, g)
         | None => rankEntries g
         end.
Proof.
  unfold runStart, seedsMissing, fetched, rankEntries.
  destruct (negb (truthy (clientSeed1 g)) || negb (truthy (clientSeed2 g))); [reflexivity |].
  destruct (negb (channel pl)); [reflexivity |].
  destruct (negb (msg pl)); reflexivity.
Qed.

Lemma rankEntries_cases (g : Giveaway) :
  (entries g = [] /\ rankEntries g = (NoEntries, g)) \/
  (entries g <> [] /\
   rankEntries g = (Ranked (ranking (assignFloats g)), set_entries (assignFloats g) g)).
Proof.
  unfold rankEntries. destruct (entries g) as [| e l] eqn:E; [left | right].
  - split; reflexivity.
  - split; [discriminate |]. cbn [length Nat.eqb]. reflexivity.
Qed.

(** What an event does to the giveaway. *)
Inductive Effect (st : State) : Giveaway -> Prop :=
| NoEffect : Effect st (gw st)
| CollectionClosed : Effect st (set_collecting false (gw st))
| RowsAppended it q : queue st = it :: q -> Effect st (fst (joinTask it (gw st)))
| SeedsSet cs1 cs2 : Effect st (set_seeds cs1 cs2 (gw st))
| FloatsAssigned k :
    running st !! k = Some AwaitFetch -> entries (gw st) <> [] ->
    Effect st (set_entries (assignFloats (gw st)) (gw st))
| ResultStored k sorted :
    running st !! k = Some (AwaitEnd sorted) -> Effect st (runFinish sorted (gw st)).

Lemma step_effect (st : State) (ev : Event) : Effect st (gw (fst (step st ev))).
Proof.
  destruct ev as [now | it | | cs1 cs2 | k pl]; cbn [step].
  - destruct (_ && _); cbn [fst gw]; [apply CollectionClosed | apply NoEffect].
  - destruct (negb _); cbn [fst gw]; apply NoEffect.
  - destruct (queue st) as [| it q] eqn:E; cbn [fst gw]; [apply NoEffect |].
    apply (RowsAppended st it q E).
  - cbn [fst gw]. apply SeedsSet.
  - destruct (running st !! k) as [[| | sorted] |] eqn:E; [| | | apply NoEffect].
    + destruct (negb (reply pl)); [cbn [fst gw]; apply NoEffect |].
      destruct (seedsMissing (gw st)); cbn [fst gw]; apply NoEffect.
    + destruct (fetched pl); [cbn [fst gw]; apply NoEffect |].
      destruct (rankEntries_cases (gw st)) as [[_ ->] | [Hne ->]]; cbn [fst gw].
      * apply NoEffect.
      * apply (FloatsAssigned st k E Hne).
    + cbn [fst gw]. apply (ResultStored st k sorted E).
Qed.














(** ** Facts about [gw.finalFloats] *)

Lemma omap_lookup_seq {A B} (f : A -> B) (l : list A) (n : nat) :
  (n <= length l)%nat -> omap (fun i => f <$> l !! i) (seq 0 n) = f <$> take n l.
Proof.
  induction n as [| n IH]; intros H; [reflexivity |].
  rewrite seq_S, omap_app, IH by lia. change (0 + n)%nat with n.
  destruct (lookup_lt_is_Some_2 l n ltac:(lia)) as [x Hx].
  cbn. rewrite Hx. cbn. rewrite (take_S_r l n x Hx), fmap_app. reflexivity.
Qed.

Lemma runStart_ranked (pl : Platform) (g g1 : Giveaway) (sorted : list nat) :
  runStart pl g = (Ranked sorted, g1) ->
  sorted = ranking (assignFloats g) /\ g1 = set_entries (assignFloats g) g /\ entries g <> [].
Proof.
  unfold runStart.
  destruct (negb (truthy _) || negb (truthy _)); [discriminate |].
  destruct (negb (channel pl)); [discriminate |].
  destruct (negb (msg pl)); [discriminate |].
  destruct (length (entries g) =? 0)%nat eqn:E; [discriminate |].
  intros [= <- <-]. repeat split. intros Hn. rewrite Hn in E. discriminate.
Qed.

Lemma rowOf_finalFloat (l : list Entry) : map rowOfFinal (map finalFloat l) = map rowOf l.
Proof. rewrite map_map. reflexivity. Qed.

(** ** The models of the built-ins on known values *)

(** FIPS 180-4, SHA-512 of the message [abc]. *)
Example sha512_abc :
  string_of_list_ascii (JS.hex_of_state (SHA512.hash_state (JS.bytes_of_string "abc")))
  = ("ddaf35a193617abacc417349ae20413112e6fa4e89a97ea20a9eeee64b55d39a"
       ++ "2192992a274fc1a836ba3c23a3feebbd454d4423643ce80e2a9ac94fa54ca49f")%string.
Proof. vm_compute. reflexivity. Qed.

(** RFC 4231, test case 2: a key shorter than a block. *)
Example hmac_sha512_rfc4231_case2 :
  JS.createHmac_sha512_hex "Jefe" "what do ya want for nothing?"
  = ("164b7a7bfcf819e2e395fbe73b56e0a387bd64222e831fd610270cd7ea250554"
       ++ "9758bf75c05a994a6d034f65f8f0e6fdcaeab1a34d4a6b4b636e070a38bce737")%string.
Proof. vm_compute. reflexivity. Qed.

(** RFC 4231, test case 6: a key of 131 bytes, longer than a block. *)
Example hmac_sha512_rfc4231_case6 :
  string_of_list_ascii
    (JS.hex_of_state
       (HMAC.hmac_state (repeat 170 131)
          (JS.bytes_of_string "Test Using Larger Than Block-Size Key - Hash Key First")))
  = ("80b24263c7c1a3ebb71493c1dd7be8b49b46d1f41b4aeec1121b013783f8f352"
       ++ "6b56d037e05f2598bd0fd2215d6a1e5295e64f73f63f0aec8b915a985d786598")%string.
Proof. vm_compute. reflexivity. Qed.

Example string_of_index_examples :
  map JS.string_of_index [0; 7; 10; 409; 1234]%nat = ["0"; "7"; "10"; "409"; "1234"]%string.
Proof. reflexivity. Qed.

Example parseInt16_examples :
  map JS.parseInt16 ["ff"; "1985f40acd539"; " -0x1F"; "zz"; ""]%string
  = [Some (255 # 1); Some (449009851094329 # 1); Some (- 31 # 1); None; None]%Q.
Proof. vm_compute. reflexivity. Qed.

#[local] Set Warnings "-inexact-float".

(** The rounding model against the hardware: literals, [1 - p] and the
    products [n * c] for the constants of the program. *)
Example binary64_agrees_with_hardware :
  forallb (fun c => forallb (Binary64.agrees_with_hardware (fst c) (snd c)) (seq 0 1000))
          [((1 - 0.30)%float, Binary64.fsub 1 (Binary64.lit (30 # 100)));
           ((1 - 0.40)%float, Binary64.fsub 1 (Binary64.lit (40 # 100)));
           ((1 - 0.25)%float, Binary64.fsub 1 (Binary64.lit (25 # 100)));
           (0.12%float, Binary64.lit (12 # 100));
           (0.30%float, Binary64.lit (30 # 100));
           (0.40%float, Binary64.lit (40 # 100))]
  = true.
Proof. vm_compute. reflexivity. Qed.

Lemma hex_of_state_digits (s : SHA512.state) :
  length (JS.hex_of_state s) = 128%nat /\ is_hex (JS.hex_of_state s).
Proof.
  unfold JS.hex_of_state, SHA512.state_words. cbn [flat_map].
  assert (W : forall w, length (JS.hex_of_word w) = 16%nat /\ is_hex (JS.hex_of_word w)).
  { intros w. destruct (hex_of_word_digits w) as (ds & L & F & ->).
    split; [rewrite length_map; exact L | apply is_hex_digits; exact F]. }
  unfold is_hex in *. rewrite !length_app, !Forall_app. cbn [length].
  pose proof (W (SHA512.sa s)) as [-> ?]. pose proof (W (SHA512.sb s)) as [-> ?].
  pose proof (W (SHA512.sc s)) as [-> ?]. pose proof (W (SHA512.sd s)) as [-> ?].
  pose proof (W (SHA512.se s)) as [-> ?]. pose proof (W (SHA512.sf s)) as [-> ?].
  pose proof (W (SHA512.sg s)) as [-> ?]. pose proof (W (SHA512.sh s)) as [-> ?].
  split; [reflexivity |]. repeat split; try assumption. constructor.
Qed.

(** * The claims *)

(** Claim C1.  For every server seed, pair of client seeds and 0-based entry
    index, the fairness value is [hmacFloat] of the server seed and the message
    [cs1:cs2:index], the index in decimal: the hex digest of HMAC-SHA-512 keyed
    by the server seed is 128 hexadecimal digits, the first 13 of them are read
    as an unsigned integer [v], and the result is [v / 16^13], a number in
    [0, 1).  This is the value a run stores in entry [index] of the ledger.
    The derivation is a function of its four inputs, so identical inputs give
    identical outputs. *)
Theorem fairness_derivation (seed cs1 cs2 : string) (index : nat) :
  let message :=
    (cs1 ++ ":" ++ cs2 ++ ":" ++ JS.string_of_index index)%string in
  let digest := list_ascii_of_string (JS.createHmac_sha512_hex seed message) in
  fairnessMessage cs1 cs2 index = message /\
  digest = JS.hex_of_state
             (HMAC.hmac_state (JS.bytes_of_string seed) (JS.bytes_of_string message)) /\
  length digest = 128%nat /\ is_hex digest /\
  (exists q,
      hmacFloat seed message = Some q /\
      (q == unsigned_of_hex (take 13 digest) # Z.to_pos (16 ^ 13))%Q /\
      (0 <= q < 1)%Q) /\
  (forall g i,
      pf (assignFloats g) i
      = if decide (i < length (entries g))%nat
        then hmacFloat (serverSeed g)
               (seedText (clientSeed1 g) ++ ":" ++ seedText (clientSeed2 g) ++ ":"
                  ++ JS.string_of_index i)
        else None).
Proof.
  intros message digest.
  split; [reflexivity |].
  assert (D : digest = JS.hex_of_state
                         (HMAC.hmac_state (JS.bytes_of_string seed)
                                          (JS.bytes_of_string message))).
  { unfold digest, JS.createHmac_sha512_hex. apply list_ascii_of_string_of_list_ascii. }
  split; [exact D |].
  destruct (hex_of_state_digits
              (HMAC.hmac_state (JS.bytes_of_string seed) (JS.bytes_of_string message)))
    as [L H].
  split; [rewrite D; exact L |]. split; [rewrite D; exact H |].
  split.
  - destruct (hmacFloat_value seed message) as (q & E & V & B).
    exists q. split; [exact E |]. split; [exact V |].
    fold digest in V, B. clearbody digest. rewrite V. unfold Qle, Qlt; cbn [Qnum Qden].
    rewrite Z2Pos.id by reflexivity. lia.
  - intros g i. apply pf_assignFloats.
Qed.

(** Claim C2, amended.  The three rounds are applied in order, each to the
    survivors of the one before.  A round that starts with [n >= 1] survivors
    keeps exactly the first [k] entries of the ranking and eliminates the other
    [n - k], whatever the preview frames showed, where
    [k = max(1, floor(n * (1 - fraction)))] is computed in binary64 arithmetic
    on the doubles nearest to 0.30, 0.40 and 0.25.  In rounds 2 and 3 this is
    the value of the formula in exact arithmetic for every [n < 2^50], in
    round 1 for every [n < 90]; 10 entries leave 7, then 4, then 3. *)
Theorem rounds_keep_counts (cur : list nat) :
  cur <> [] ->
  (exists r1 r2 r3,
      playRounds rounds cur = ([r1; r2; r3], remaining r3) /\
      round_ok (Binary64.lit (30 # 100)) cur r1 /\
      round_ok (Binary64.lit (40 # 100)) (remaining r1) r2 /\
      round_ok (Binary64.lit (25 # 100)) (remaining r2) r3) /\
  (forall p n, keepCount p n
               = Z.max 1 (Qfloor (Binary64.fmul (Binary64.of_nat n) (Binary64.fsub 1 p)))) /\
  (forall n i, (n < 90)%nat -> (i < 3)%nat ->
               keepCount (nth i rounds 0%Q) n = exactKeepCount (nth i exactRounds 0%Q) n) /\
  (forall n i, Z.of_nat n < 2 ^ 50 -> (1 <= i < 3)%nat ->
               keepCount (nth i rounds 0%Q) n = exactKeepCount (nth i exactRounds 0%Q) n) /\
  map (fun r => length (remaining r)) (fst (playRounds rounds (seq 0 10))) = [7; 4; 3]%nat.
Proof.
  intros Hne. split; [| split; [| split; [| split]]].
  - eexists _, _, _. split; [reflexivity |].
    assert (N1 := round_nonempty (Binary64.lit (30 # 100)) cur Hne).
    assert (N2 := round_nonempty (Binary64.lit (40 # 100)) _ N1).
    split; [| split]; apply playRound_ok; try assumption; unfold rounds; set_solver.
  - reflexivity.
  - intros n i Hn Hi. pose proof exact_below_90 as H.
    rewrite forallb_forall in H. specialize (H n). 
    rewrite forallb_forall in H. apply Z.eqb_eq. apply H; apply in_seq; lia.
  - intros n i Hn Hi. assert (C : i = 1%nat \/ i = 2%nat) by lia.
    destruct C as [-> | ->]; [apply keepCount_exact_round2 | apply keepCount_exact_round3];
      exact Hn.
  - vm_compute. reflexivity.
Qed.

Lemma rounds_keep_counts_witness :
  seq 0 10 <> [] /\
  exists r1 r2 r3, playRounds rounds (seq 0 10) = ([r1; r2; r3], remaining r3) /\
                   remaining r1 = seq 0 7 /\ remaining r2 = seq 0 4 /\ remaining r3 = seq 0 3.
Proof.
  assert (H : seq 0 10 <> []) by discriminate.
  split; [exact H |].
  destruct (rounds_keep_counts (seq 0 10) H) as [(r1 & r2 & r3 & E & O1 & O2 & O3) _].
  exists r1, r2, r3. split; [exact E |].
  destruct O1 as [R1 _], O2 as [R2 _], O3 as [R3 _].
  rewrite R3, R2, R1. vm_compute. repeat split; reflexivity.
Defined.

(** Claim C2 fails at 90 entries: [90 * (1 - 0.30)] is 62.99999999999999 in
    binary64 (here also on the hardware), so round 1 keeps 62 entries, where
    [max(1, floor(90 * (1 - 0.30)))] is 63. *)
Lemma round1_of_90_keeps_62 :
  map (fun r => length (remaining r)) (fst (playRounds rounds (seq 0 90))) = [62; 37; 27]%nat /\
  exactKeepCount (30 # 100) 90 = 63 /\
  Binary64.of_float (90 * (1 - 0.30))%float
  = Some (Binary64.fmul (Binary64.of_nat 90) (Binary64.fsub 1 (Binary64.lit (30 # 100)))).
Proof. vm_compute. repeat split; reflexivity. Qed.













(** Claim C9, amended.  The final ranking a run publishes is a permutation,
    with multiplicity, of the entries that were in the ledger when the run
    started, and has exactly that many elements; rows appended to the ledger
    while the run was under way are not in it.  It is a permutation of the
    whole ledger when the ledger did not grow during the run. *)
Theorem finalFloats_of_snapshot (pl : Platform) (g g1 g2 : Giveaway) (sorted : list nat) :
  runStart pl g = (Ranked sorted, g1) ->
  map rowOf (take (length (entries g)) (entries g2)) = map rowOf (entries g) ->
  exists ff,
    finalFloats (runFinish sorted g2) = Some ff /\
    length ff = length (entries g) /\
    ff ≡ₚ map finalFloat (take (length (entries g)) (entries g2)) /\
    map rowOfFinal ff ≡ₚ map rowOf (entries g) /\
    (length (entries g2) = length (entries g) -> ff ≡ₚ map finalFloat (entries g2)).
Proof.
  intros Hs Hrows. apply runStart_ranked in Hs as (-> & _ & _).
  set (n := length (entries g)) in *.
  assert (Hn : (n <= length (entries g2))%nat).
  { apply (f_equal (@length _)) in Hrows. rewrite !length_map, length_take in Hrows.
    fold n in Hrows. lia. }
  assert (P : ranking (assignFloats g) ≡ₚ seq 0 n).
  { rewrite ranking_perm, length_assignFloats. reflexivity. }
  eexists. split; [reflexivity |].
  assert (Q : omap (fun i => finalFloat <$> entries g2 !! i) (ranking (assignFloats g))
              ≡ₚ map finalFloat (take n (entries g2))).
  { rewrite P. rewrite omap_lookup_seq by exact Hn. reflexivity. }
  split; [rewrite Q, length_map, length_take; lia |].
  split; [exact Q |].
  split; [rewrite Q, rowOf_finalFloat; rewrite Hrows; reflexivity |].
  intros Hl. rewrite Q. rewrite take_ge by lia. reflexivity.
Qed.

Lemma finalFloats_of_snapshot_witness :
  let g := gw twoJoined in
  let g1 := snd (runStart platformUp (set_seeds "block" "creator" g)) in
  let g2 := fst (joinTask (asUser "cat" NoMember) g1) in
  exists ff, finalFloats (runFinish (ranking (entries g1)) g2) = Some ff /\
             map FinalFloat.id ff = ["bob-0"; "ann-0"]%string /\
             length (entries g2) = 3%nat.
Proof.
  intros g g1 g2.
  destruct (finalFloats_of_snapshot platformUp (set_seeds "block" "creator" g) g1 g2
              (ranking (entries g1)))
    as (ff & E & _); [vm_compute; reflexivity | vm_compute; reflexivity |].
  exists ff. split; [exact E |].
  assert (E' : Some (map FinalFloat.id ff) = Some ["bob-0"; "ann-0"]%string).
  { change (Some (map FinalFloat.id ff)) with (map FinalFloat.id <$> Some ff).
    rewrite <- E. vm_compute. reflexivity. }
  split; [congruence | vm_compute; reflexivity].
Defined.

(** Claim C9 fails when a queued join is processed while a run is under way:
    the run completes and publishes a ranking of two entries, and the ledger
    holds three. *)
Lemma join_during_run_not_ranked :
  let st := steps twoJoined [JoinClick (asUser "cat" NoMember);
                             SeedsSubmit "block" "creator";
                             Resume 0 platformUp; Resume 0 platformUp;
                             QueueTask; Resume 0 platformUp] in
  winner (gw st) = Some 1%nat /\ running st = [] /\
  length <$> finalFloats (gw st) = Some 2%nat /\
  length (entries (gw st)) = 3%nat /\
  map id (entries (gw st)) = ["ann-0"; "bob-0"; "cat-0"]%string /\
  map FinalFloat.id <$> finalFloats (gw st) = Some ["bob-0"; "ann-0"]%string.
Proof. vm_compute. repeat split; reflexivity. Qed.



(** * Further properties of the code *)

(** ** Facts about [split] and the identifiers *)

Lemma split_nonempty (sep : ascii) (s : string) : Str.split sep s <> [].
Proof.
  destruct s as [| c s]; cbn [Str.split]; [discriminate |].
  destruct (Ascii.eqb c sep); [discriminate |].
  destruct (Str.split sep s); discriminate.
Qed.

Lemma split_cons (sep c : ascii) (s : string) :
  c <> sep ->
  exists piece pieces, Str.split sep s = piece :: pieces /\
                       Str.split sep (String c s) = String c piece :: pieces.
Proof.
  intros Hc. cbn [Str.split]. apply Ascii.eqb_neq in Hc. rewrite Hc.
  destruct (Str.split sep s) as [| piece pieces] eqn:E.
  - exfalso. exact (split_nonempty sep s E).
  - exists piece, pieces. split; reflexivity.
Qed.

(** A piece holds no separator. *)
Lemma split_pieces (sep : ascii) (s : string) :
  Forall (fun piece => ~ In sep (list_ascii_of_string piece)) (Str.split sep s).
Proof.
  induction s as [| c s IH]; cbn [Str.split].
  - constructor; [cbn; tauto | constructor].
  - destruct (Ascii.eqb_spec c sep) as [-> | Hc].
    + constructor; [cbn; tauto | exact IH].
    + destruct (Str.split sep s) as [| piece pieces]; [constructor; [| constructor] |].
      * cbn. intros [E | []]. congruence.
      * inversion IH as [| ? ? Hp Hps]; subst. constructor; [| exact Hps].
        cbn. intros [E | E]; [congruence | exact (Hp E)].
Qed.

Lemma split_no_sep (sep : ascii) (s : string) :
  ~ In sep (list_ascii_of_string s) -> Str.split sep s = [s].
Proof.
  induction s as [| c s IH]; cbn [Str.split list_ascii_of_string]; [reflexivity |].
  intros H. destruct (Ascii.eqb_spec c sep) as [-> | Hc]; [exfalso; apply H; left; reflexivity |].
  rewrite IH; [reflexivity |]. intros E. apply H. right. exact E.
Qed.

(** The pieces of [p ++ sep ++ s] when [p] holds no separator. *)
Lemma split_prefix (sep : ascii) (p s : string) :
  ~ In sep (list_ascii_of_string p) ->
  Str.split sep (p ++ String sep s) = p :: Str.split sep s.
Proof.
  induction p as [| c p IH]; intros H.
  - simpl. rewrite Ascii.eqb_refl. reflexivity.
  - change (String c p ++ String sep s)%string with (String c (p ++ String sep s)).
    cbn [Str.split list_ascii_of_string] in *. destruct (Ascii.eqb_spec c sep) as [-> | Hc].
    + exfalso. apply H. left. reflexivity.
    + rewrite IH; [reflexivity |]. intros E. apply H. right. exact E.
Qed.

Lemma splitGwId_prefixed (p gwId : string) :
  ~ In "_"%char (list_ascii_of_string p) ->
  splitGwId (p ++ String "_" gwId) = default EmptyString (head (Str.split "_" gwId)).
Proof.
  intros H. unfold splitGwId. rewrite split_prefix by exact H.
  cbn [lookup list_lookup]. destruct (Str.split "_" gwId) as [| piece pieces] eqn:E.
  - exfalso. exact (split_nonempty _ _ E).
  - reflexivity.
Qed.

Lemma no_underscore_join : ~ In "_"%char (list_ascii_of_string "join").
Proof. cbn. intros H. repeat (destruct H as [H | H]; [discriminate H |]). exact H. Qed.

Lemma no_underscore_verify : ~ In "_"%char (list_ascii_of_string "verify").
Proof. cbn. intros H. repeat (destruct H as [H | H]; [discriminate H |]). exact H. Qed.

Lemma no_underscore_seeds : ~ In "_"%char (list_ascii_of_string "seeds").
Proof. cbn. intros H. repeat (destruct H as [H | H]; [discriminate H |]). exact H. Qed.

Lemma no_underscore_gw : ~ In "_"%char (list_ascii_of_string "gw").
Proof. cbn. intros H. repeat (destruct H as [H | H]; [discriminate H |]). exact H. Qed.

Lemma splitGwId_customIds (gwId : string) :
  let piece := default EmptyString (head (Str.split "_" gwId)) in
  splitGwId (joinCustomId gwId) = piece /\
  splitGwId (verifyCustomId gwId) = piece /\
  splitGwId (seedsCustomId gwId) = piece.
Proof.
  intros piece. split; [| split].
  - exact (splitGwId_prefixed "join" gwId no_underscore_join).
  - exact (splitGwId_prefixed "verify" gwId no_underscore_verify).
  - exact (splitGwId_prefixed "seeds" gwId no_underscore_seeds).
Qed.

Lemma first_piece_gwIdOf (now : N) :
  default EmptyString (head (Str.split "_" (gwIdOf now))) = "gw"%string.
Proof.
  unfold gwIdOf. change ("gw_" ++ Str.ofN now)%string with ("gw" ++ String "_" (Str.ofN now))%string.
  rewrite split_prefix by exact no_underscore_gw. reflexivity.
Qed.

Lemma gwIdOf_not_gw (now : N) : gwIdOf now <> "gw"%string.
Proof. unfold gwIdOf. intros E. simpl in E. discriminate E. Qed.

Lemma started_lookup_gw (starts : list (N * Giveaway)) (G : gmap string Giveaway) :
  started G starts !! "gw"%string = G !! "gw"%string.
Proof.
  revert G. induction starts as [| [t g] starts IH]; intros G; [reflexivity |].
  cbn [started fold_left fst snd]. fold (started (<[gwIdOf t := g]> G) starts).
  rewrite IH. apply lookup_insert_ne. apply gwIdOf_not_gw.
Qed.

Lemma startsWith_customIds (gwId : string) :
  Str.startsWith (joinCustomId gwId) "join_" = true /\
  Str.startsWith (verifyCustomId gwId) "join_" = false /\
  Str.startsWith (verifyCustomId gwId) "verify_" = true /\
  Str.startsWith (seedsCustomId gwId) "seeds_" = true.
Proof. destruct gwId; split; [reflexivity | | reflexivity |]; repeat split. Qed.

(** Property X1.  The key that the handlers of the buttons and of the seeds
    modal look up in [GIVEAWAYS] is the text of the giveaway's id before its
    first underscore.  It is the id itself exactly when the id holds no
    underscore; for the id [gw_<time>] that [$start] gives a giveaway it is
    [gw], at every time, and never the id, and [gw] is also the key of the
    modal that the Verify handler builds from it. *)
Theorem customId_key_is_first_piece (gwId : string) :
  let piece := default EmptyString (head (Str.split "_" gwId)) in
  splitGwId (joinCustomId gwId) = piece /\
  splitGwId (verifyCustomId gwId) = piece /\
  splitGwId (seedsCustomId gwId) = piece /\
  (piece = gwId <-> ~ In "_"%char (list_ascii_of_string gwId)) /\
  (forall now, splitGwId (joinCustomId (gwIdOf now)) = "gw"%string /\
               splitGwId (verifyCustomId (gwIdOf now)) = "gw"%string /\
               splitGwId (seedsCustomId (splitGwId (verifyCustomId (gwIdOf now)))) = "gw"%string /\
               gwIdOf now <> "gw"%string).
Proof.
  intros piece. destruct (splitGwId_customIds gwId) as (J & V & S).
  split; [exact J |]. split; [exact V |]. split; [exact S |]. split.
  - split.
    + intros E. pose proof (split_pieces "_" gwId) as P. unfold piece in E.
      destruct (Str.split "_" gwId) as [| p ps] eqn:Es; [exfalso; exact (split_nonempty _ _ Es) |].
      inversion P as [| ? ? Hp _]; subst. cbn in Hp. exact Hp.
    + intros H. unfold piece. rewrite split_no_sep by exact H. reflexivity.
  - intros now. destruct (splitGwId_customIds (gwIdOf now)) as (J' & V' & _).
    rewrite first_piece_gwIdOf in J', V'.
    split; [exact J' |]. split; [exact V' |]. split; [rewrite V'; reflexivity |].
    apply gwIdOf_not_gw.
Qed.

(** Property X2.  In a store [GIVEAWAYS] that holds the giveaways that
    [$start] has started and nothing under the key [gw], every click on the
    Join or the Verify button of a giveaway is answered by [Giveaway not
    found], so no join is queued and no seeds modal is shown, and a modal
    with the key [gw] is answered in the same way; when the store holds a
    giveaway under the key [gw], the buttons of every giveaway act on that
    one. *)
Theorem buttons_of_started_giveaways (starts : list (N * Giveaway)) (now : N) :
  let GIVEAWAYS := started ∅ starts in
  interactionCreate GIVEAWAYS Button (joinCustomId (gwIdOf now)) = GiveawayNotFoundReply /\
  interactionCreate GIVEAWAYS Button (verifyCustomId (gwIdOf now)) = GiveawayNotFoundReply /\
  interactionCreate GIVEAWAYS ModalSubmit "seeds_gw" = GiveawayNotFoundReply /\
  (forall G, G !! "gw"%string = None ->
             interactionCreate (started G starts) Button (joinCustomId (gwIdOf now))
             = GiveawayNotFoundReply) /\
  (forall G g, G !! "gw"%string = Some g ->
               interactionCreate (started G starts) Button (joinCustomId (gwIdOf now))
               = JoinHandler "gw" g /\
               interactionCreate (started G starts) Button (verifyCustomId (gwIdOf now))
               = ShowModal "seeds_gw" g /\
               interactionCreate (started G starts) ModalSubmit "seeds_gw"
               = SeedsHandler "gw" g).
Proof.
  intros GIVEAWAYS.
  destruct (splitGwId_customIds (gwIdOf now)) as (J & V & _).
  rewrite first_piece_gwIdOf in J, V.
  assert (Miss : forall G, G !! "gw"%string = None ->
                           found (started G starts) "gw" = fun _ => GiveawayNotFoundReply).
  { intros G HG. unfold found, findGiveaway. rewrite started_lookup_gw, HG. reflexivity. }
  assert (Hit : forall G g handler, G !! "gw"%string = Some g ->
                                    found (started G starts) "gw" handler = handler g).
  { intros G g handler HG. unfold found, findGiveaway. rewrite started_lookup_gw, HG.
    reflexivity. }
  unfold interactionCreate.
  destruct (startsWith_customIds (gwIdOf now)) as (SJ & SVJ & SV & _).
  rewrite SJ, SVJ, SV, J, V.
  change (Str.startsWith "seeds_gw" "seeds_") with true. cbv iota.
  change (splitGwId "seeds_gw") with "gw"%string.
  split; [unfold GIVEAWAYS; rewrite Miss by apply lookup_empty; reflexivity |].
  split; [unfold GIVEAWAYS; rewrite Miss by apply lookup_empty; reflexivity |].
  split; [unfold GIVEAWAYS; rewrite Miss by apply lookup_empty; reflexivity |].
  split; [intros G HG; rewrite Miss by exact HG; reflexivity |].
  intros G g HG. split; [apply Hit; exact HG |]. split; [apply Hit; exact HG |].
  apply Hit. exact HG.
Qed.

(** ** Facts about the class [JoinQueue] *)

Section JoinQueueFacts.
Context {T : Type}.
Implicit Types (q : JoinQueue.t T) (evs : list (JoinQueue.Event T)).

Lemma guarded_step q ev : JoinQueue.guarded q -> JoinQueue.guarded (fst (JoinQueue.step q ev)).
Proof.
  intros [[P [a L]] | ->].
  - destruct q as [qu pr lo]. cbn [JoinQueue.processing JoinQueue.loops] in P, L. subst pr lo.
    destruct ev as [task | k rejected | k]; cbn.
    + left. split; [reflexivity | exists a; reflexivity].
    + destruct k as [| k]; cbn; [| left; split; [reflexivity | exists a; reflexivity]].
      destruct a; cbn; left; (split; [reflexivity | eexists; reflexivity]).
    + destruct k as [| k]; cbn; [| left; split; [reflexivity | exists a; reflexivity]].
      destruct a; cbn; [left; split; [reflexivity | eexists; reflexivity] |].
      destruct qu as [| task rest]; cbn; [right; reflexivity |].
      left. split; [reflexivity | eexists; reflexivity].
  - destruct ev as [task | k rejected | k]; cbn.
    + left. split; [reflexivity | eexists; reflexivity].
    + right. reflexivity.
    + right. reflexivity.
Qed.

Lemma guarded_run evs q : JoinQueue.guarded q -> JoinQueue.guarded (JoinQueue.run q evs).
Proof.
  revert q. induction evs as [| ev evs IH]; intros q G; [exact G |].
  cbn [JoinQueue.run fold_left]. apply IH, guarded_step, G.
Qed.

(** A step calls the task at the head of the queue, if it calls one, and a
    push appends to the queue. *)
Lemma step_fifo q ev :
  JoinQueue.guarded q ->
  option_list (snd (JoinQueue.step q ev)) ++ JoinQueue.queue (fst (JoinQueue.step q ev))
  = JoinQueue.queue q ++ JoinQueue.pushed [ev].
Proof.
  intros [[P [a L]] | ->].
  - destruct q as [qu pr lo]. cbn [JoinQueue.processing JoinQueue.loops] in P, L. subst pr lo.
    destruct ev as [task | k rejected | k]; cbn.
    + reflexivity.
    + destruct k as [| k]; cbn; [destruct a |]; cbn; rewrite app_nil_r; reflexivity.
    + destruct k as [| k]; cbn; [destruct a |]; cbn; try (rewrite app_nil_r; reflexivity).
      destruct qu as [| task rest]; cbn; [reflexivity | rewrite app_nil_r; reflexivity].
  - destruct ev as [task | k rejected | k]; cbn; reflexivity.
Qed.

Lemma pushed_cons ev evs :
  JoinQueue.pushed (ev :: evs) = JoinQueue.pushed [ev] ++ JoinQueue.pushed (T := T) evs.
Proof. unfold JoinQueue.pushed. cbn [omap]. destruct ev; reflexivity. Qed.

Lemma run_fifo evs q :
  JoinQueue.guarded q ->
  JoinQueue.calls q evs ++ JoinQueue.queue (JoinQueue.run q evs)
  = JoinQueue.queue q ++ JoinQueue.pushed evs.
Proof.
  revert q. induction evs as [| ev evs IH]; intros q G.
  - cbn. rewrite app_nil_r. reflexivity.
  - cbn [JoinQueue.calls JoinQueue.run fold_left].
    fold (JoinQueue.run (fst (JoinQueue.step q ev)) evs).
    rewrite <- app_assoc, (IH _ (guarded_step q ev G)), app_assoc, (step_fifo q ev G).
    rewrite (pushed_cons ev evs), app_assoc. reflexivity.
Qed.

Lemma run_app evs1 evs2 q :
  JoinQueue.run q (evs1 ++ evs2) = JoinQueue.run (JoinQueue.run q evs1) evs2.
Proof. apply fold_left_app. Qed.

Lemma calls_app evs1 evs2 q :
  JoinQueue.calls q (evs1 ++ evs2)
  = JoinQueue.calls q evs1 ++ JoinQueue.calls (JoinQueue.run q evs1) evs2.
Proof.
  revert q. induction evs1 as [| ev evs1 IH]; intros q; [reflexivity |].
  cbn [app JoinQueue.calls JoinQueue.run fold_left]. rewrite IH, app_assoc. reflexivity.
Qed.

(** One settled task and one timer take the loop through one iteration. *)
Lemma drain_one (rejected : bool) (a : JoinQueue.Await T) (qu : list T) :
  JoinQueue.run (JoinQueue.mk qu true [a]) (JoinQueue.drain [rejected])
  = match qu with
    | task :: rest => JoinQueue.mk rest true [JoinQueue.AwaitTask task]
    | [] => JoinQueue.new
    end /\
  JoinQueue.calls (JoinQueue.mk qu true [a]) (JoinQueue.drain [rejected]) = take 1 qu.
Proof. destruct a, qu; split; reflexivity. Qed.

Lemma drain_all (outcomes : list bool) (a : JoinQueue.Await T) (qu : list T) :
  length outcomes = S (length qu) ->
  JoinQueue.run (JoinQueue.mk qu true [a]) (JoinQueue.drain outcomes) = JoinQueue.new /\
  JoinQueue.calls (JoinQueue.mk qu true [a]) (JoinQueue.drain outcomes) = qu.
Proof.
  revert a qu. induction outcomes as [| o outcomes IH]; intros a qu Hl; [discriminate Hl |].
  change (JoinQueue.drain (o :: outcomes))
    with (JoinQueue.drain [o] ++ JoinQueue.drain (T := T) outcomes).
  rewrite run_app, calls_app. destruct (drain_one o a qu) as [R C]. rewrite R, C.
  destruct qu as [| task rest].
  - destruct outcomes; [split; reflexivity | discriminate Hl].
  - cbn [length] in Hl. injection Hl as Hl.
    destruct (IH (JoinQueue.AwaitTask task) rest Hl) as [R' C']. rewrite R', C'.
    split; reflexivity.
Qed.

End JoinQueueFacts.

(** Property X3.  The join queue is first in, first out and loses nothing:
    after any sequence of pushes, settled tasks (fulfilled or rejected) and
    timers on a new queue, the tasks that have been called, followed by the
    tasks still in the queue, are the tasks pushed, in the order of the
    pushes.  At most one loop is under way, exactly when [processing] is
    set, and no task waits in the queue while none is. *)
Theorem joinQueue_fifo {T : Type} (evs : list (JoinQueue.Event T)) :
  let q := JoinQueue.run JoinQueue.new evs in
  JoinQueue.calls JoinQueue.new evs ++ JoinQueue.queue q = JoinQueue.pushed evs /\
  (length (JoinQueue.loops q) <= 1)%nat /\
  (JoinQueue.processing q = true <-> length (JoinQueue.loops q) = 1%nat) /\
  (JoinQueue.processing q = false -> JoinQueue.queue q = []).
Proof.
  intros q.
  assert (G0 : JoinQueue.guarded (T := T) JoinQueue.new) by (right; reflexivity).
  split; [exact (run_fifo evs JoinQueue.new G0) |].
  destruct (guarded_run evs JoinQueue.new G0) as [[P [a L]] | E].
  - fold q in P, L. rewrite L, P. cbn. repeat split; try lia; discriminate.
  - fold q in E. rewrite E. cbn. repeat split; try lia; discriminate.
Qed.

(** Property X4.  The queue drains: from a state reached with a loop under
    way, when the task under way settles and the timer fires once more than
    there are tasks waiting, every waiting task has been called, in the
    order of the queue, whether the tasks before it were fulfilled or
    rejected, and the queue is as new. *)
Theorem joinQueue_drains {T : Type} (evs : list (JoinQueue.Event T)) (outcomes : list bool) :
  let q := JoinQueue.run JoinQueue.new evs in
  JoinQueue.processing q = true ->
  length outcomes = S (length (JoinQueue.queue q)) ->
  JoinQueue.run q (JoinQueue.drain outcomes) = JoinQueue.new /\
  JoinQueue.calls q (JoinQueue.drain outcomes) = JoinQueue.queue q /\
  JoinQueue.calls JoinQueue.new (evs ++ JoinQueue.drain outcomes) = JoinQueue.pushed evs.
Proof.
  intros q P Hl.
  assert (G0 : JoinQueue.guarded (T := T) JoinQueue.new) by (right; reflexivity).
  pose proof (run_fifo evs JoinQueue.new G0) as F.
  pose proof (guarded_run evs JoinQueue.new G0) as G.
  rewrite calls_app. fold q in F, G |- *. clearbody q.
  destruct G as [[_ [a L]] | E]; [| rewrite E in P; discriminate P].
  destruct q as [qu pr lo]. cbn [JoinQueue.processing JoinQueue.loops JoinQueue.queue] in *.
  subst pr lo. destruct (drain_all outcomes a qu Hl) as [R C].
  split; [exact R |]. split; [exact C |]. rewrite C. exact F.
Qed.


Lemma joinQueue_drains_witness :
  JoinQueue.calls JoinQueue.new
    ([JoinQueue.Push 1%nat; JoinQueue.Push 2%nat; JoinQueue.Push 3%nat]
     ++ JoinQueue.drain [false; true; false])
  = [1; 2; 3]%nat.
Proof.
  exact (proj2 (proj2 (joinQueue_drains
                         [JoinQueue.Push 1%nat; JoinQueue.Push 2%nat; JoinQueue.Push 3%nat]
                         [false; true; false] eq_refl eq_refl))).
Defined.

(** ** Facts about ordinary objects *)

Section ObjFacts.
Context {V : Type}.
Implicit Types (o : Obj.t V) (k : string) (v : V).

Lemma getOwn_set_eq o k v : Obj.getOwn (Obj.set k v o) k = Some v.
Proof.
  induction o as [| [k' v'] o IH]; cbn [Obj.set Obj.getOwn].
  - rewrite String.eqb_refl. reflexivity.
  - destruct (String.eqb k' k) eqn:E; cbn [Obj.getOwn]; rewrite E; [reflexivity | exact IH].
Qed.

Lemma getOwn_set_ne o k k' v : k <> k' -> Obj.getOwn (Obj.set k v o) k' = Obj.getOwn o k'.
Proof.
  intros Hk. induction o as [| [k1 v1] o IH]; cbn [Obj.set Obj.getOwn].
  - apply String.eqb_neq in Hk. rewrite Hk. reflexivity.
  - destruct (String.eqb_spec k1 k) as [-> | Hk1]; cbn [Obj.getOwn].
    + apply String.eqb_neq in Hk. rewrite Hk. reflexivity.
    + rewrite IH. reflexivity.
Qed.

Lemma getOwn_None o k : Obj.getOwn o k = None <-> ~ In k (map fst o).
Proof.
  induction o as [| [k' v'] o IH]; cbn [Obj.getOwn map fst In]; [tauto |].
  destruct (String.eqb_spec k' k) as [-> | Hk].
  - split; [discriminate | tauto].
  - rewrite IH. tauto.
Qed.



Lemma getOwn_In o k v : List.NoDup (map fst o) -> Obj.getOwn o k = Some v <-> In (k, v) o.
Proof.
  induction o as [| [k' v'] o IH]; cbn [Obj.getOwn map fst In]; intros H.
  - split; [discriminate | tauto].
  - inversion H as [| ? ? Hn Hd]; subst.
    destruct (String.eqb_spec k' k) as [-> | Hk].
    + split; [intros [= ->]; left; reflexivity |].
      intros [[= ->] | Hin]; [reflexivity |].
      exfalso. apply Hn. change k with (fst (k, v)). apply in_map. exact Hin.
    + rewrite (IH Hd). split; [tauto |]. intros [[= -> _] | Hin]; [congruence | exact Hin].
Qed.

Lemma getOwn_delete o k k' :
  Obj.getOwn (Obj.delete k o) k' = if String.eqb k k' then None else Obj.getOwn o k'.
Proof.
  induction o as [| [k1 v1] o IH]; cbn [Obj.delete List.filter Obj.getOwn fst].
  - destruct (String.eqb k k'); reflexivity.
  - fold (Obj.delete k o). destruct (String.eqb_spec k1 k) as [-> | Hk1]; cbn [negb Obj.getOwn].
    + rewrite IH. destruct (String.eqb k k'); reflexivity.
    + rewrite IH. destruct (String.eqb_spec k k') as [E | Hk]; [| reflexivity].
      subst k'. apply String.eqb_neq in Hk1. rewrite Hk1. reflexivity.
Qed.

Lemma delete_absent o k : Obj.getOwn o k = None -> Obj.delete k o = o.
Proof.
  induction o as [| [k1 v1] o IH]; cbn [Obj.delete List.filter Obj.getOwn fst]; [reflexivity |].
  fold (Obj.delete k o). destruct (String.eqb k1 k); [discriminate |].
  intros H. cbn [negb]. rewrite (IH H). reflexivity.
Qed.

Lemma insertByIndex_perm (x : N * (string * V)) l : Obj.insertByIndex x l ≡ₚ x :: l.
Proof.
  induction l as [| y l IH]; cbn [Obj.insertByIndex]; [reflexivity |].
  destruct (fst x <=? fst y)%N; [reflexivity |]. rewrite IH. apply perm_swap.
Qed.

Lemma sortByIndex_perm (l : list (N * (string * V))) : Obj.sortByIndex l ≡ₚ l.
Proof.
  induction l as [| x l IH]; [reflexivity |].
  cbn [Obj.sortByIndex foldr]. fold (Obj.sortByIndex l). rewrite insertByIndex_perm, IH.
  reflexivity.
Qed.

(** [Object.entries] lists every own property once. *)
Lemma entries_perm o : Obj.entries o ≡ₚ o.
Proof.
  unfold Obj.entries. rewrite sortByIndex_perm. unfold Obj.indexed.
  induction o as [| [k v] o IH]; [reflexivity |].
  cbn [omap list_omap List.filter fst].
  destruct (Obj.arrayIndex k) as [n |] eqn:E; cbn [fmap option_fmap option_map map snd].
  - rewrite bool_decide_eq_false_2 by discriminate. cbn [app]. rewrite IH. reflexivity.
  - rewrite bool_decide_eq_true_2 by reflexivity. rewrite <- Permutation_middle, IH. reflexivity.
Qed.

End ObjFacts.

(** ** Facts about the participants field *)














(** ** Facts about the web API *)

Lemma set_absent {V} (o : Obj.t V) (k : string) (v : V) :
  Obj.getOwn o k = None -> Obj.set k v o = o ++ [(k, v)].
Proof.
  induction o as [| [k' v'] o IH]; cbn [Obj.set Obj.getOwn app]; [reflexivity |].
  destruct (String.eqb k' k); [discriminate |]. intros H. rewrite (IH H). reflexivity.
Qed.

Lemma delete_set_absent {V} (o : Obj.t V) (k : string) (v : V) :
  Obj.getOwn o k = None -> Obj.delete k (Obj.set k v o) = o.
Proof.
  intros H. rewrite (set_absent o k v H). unfold Obj.delete. rewrite List.filter_app.
  fold (Obj.delete k o). rewrite (delete_absent o k H). cbn [List.filter fst].
  rewrite String.eqb_refl. apply app_nil_r.
Qed.

Lemma define_absent {V} (props : list (string * V)) (o : Obj.t V) (k : string) :
  ~ In k (map fst props) -> Obj.getOwn (Obj.define o props) k = Obj.getOwn o k.
Proof.
  revert o. induction props as [| [k' v'] props IH]; intros o H; [reflexivity |].
  cbn [Obj.define fold_left fst snd]. fold (Obj.define (Obj.set k' v' o) props).
  rewrite IH by (intros E; apply H; right; exact E).
  apply getOwn_set_ne. intros ->. apply H. left. reflexivity.
Qed.

Lemma define_present {V} (props : list (string * V)) (o : Obj.t V) (k : string) (v : V) :
  List.NoDup (map fst props) -> In (k, v) props -> Obj.getOwn (Obj.define o props) k = Some v.
Proof.
  revert o. induction props as [| [k' v'] props IH]; intros o D H; [destruct H |].
  cbn [Obj.define fold_left fst snd]. fold (Obj.define (Obj.set k' v' o) props).
  inversion D as [| ? ? Hn Hd]; subst. destruct H as [[= -> ->] | H].
  - rewrite define_absent by exact Hn. apply getOwn_set_eq.
  - apply IH; assumption.
Qed.

(** The fields of a posted setup. *)
Lemma post_setup_fields (now : N) (body SETUPS : Obj.t Api.JSON) :
  (Obj.getOwn body "id" = None ->
   Obj.getOwn (Api.withId (Api.setupIdOf now) body) "id" = Some (Api.JStr (Api.setupIdOf now))) /\
  (List.NoDup (map fst body) ->
   forall k v, Obj.getOwn body k = Some v ->
               Obj.getOwn (Api.withId (Api.setupIdOf now) body) k = Some v).
Proof.
  assert (Keys : forall k, In k (map fst (Obj.entries body)) <-> In k (map fst body)).
  { intros k. split; apply Permutation_in, Permutation_map; [| symmetry]; apply entries_perm. }
  split.
  - intros H. unfold Api.withId, Obj.spread.
    rewrite define_absent; [cbn; reflexivity |].
    rewrite Keys. apply getOwn_None. exact H.
  - intros D k v H. unfold Api.withId, Obj.spread.
    apply define_present.
    + apply (Permutation_NoDup (l := map fst body)); [| exact D].
      apply Permutation_map. symmetry. apply entries_perm.
    + apply (Permutation_in (l := body)); [symmetry; apply entries_perm |].
      apply getOwn_In; assumption.
Qed.


(** Property X8.  Deleting a setup answers 404 and changes nothing when
    [SETUPS[id]] is undefined or a falsy value; else the answer is [{ ok:
    true }], the store holds no property [id] afterwards and its other
    properties are untouched.  A name that [Object.prototype] defines counts
    as present: for it the answer is [{ ok: true }] though the store holds
    no such setup and does not change.  Deleting again a key that was
    deleted answers 404, unless [Object.prototype] defines it. *)
Theorem delete_setup_cases (id : string) (SETUPS : Obj.t Api.JSON) :
  let r := Api.deleteSetup id SETUPS in
  (Api.present SETUPS id = false -> r = (SETUPS, Api.Json 404 (Api.JObj
      [("ok"%string, Api.JBool false); ("error"%string, Api.JStr "not found")]))) /\
  (Api.present SETUPS id = true ->
   snd r = Api.ok /\ Obj.getOwn (fst r) id = None /\
   (forall k, k <> id -> Obj.getOwn (fst r) k = Obj.getOwn SETUPS k)) /\
  (Obj.getOwn SETUPS id = None ->
   Api.present SETUPS id = bool_decide (id ∈ Obj.prototypeKeys) /\
   (id ∈ Obj.prototypeKeys -> r = (SETUPS, Api.ok))) /\
  (forall v, Obj.getOwn SETUPS id = Some v -> Api.present SETUPS id = Api.truthy v) /\
  (Api.present SETUPS id = true -> id ∉ Obj.prototypeKeys ->
   Api.status (snd (Api.deleteSetup id (fst r))) = 404%nat).
Proof.
  intros r. unfold r, Api.deleteSetup.
  assert (Abs : forall S : Obj.t Api.JSON,
             Obj.getOwn S id = None ->
             Api.present S id = bool_decide (id ∈ Obj.prototypeKeys)).
  { intros S H. unfold Api.present, Obj.lookup. rewrite H.
    destruct (bool_decide (id ∈ Obj.prototypeKeys)); reflexivity. }
  split; [| split; [| split; [| split]]].
  - intros ->. reflexivity.
  - intros ->. cbn [fst snd]. split; [reflexivity |]. split.
    + rewrite getOwn_delete, String.eqb_refl. reflexivity.
    + intros k Hk. rewrite getOwn_delete. apply String.eqb_neq in Hk.
      rewrite String.eqb_sym, Hk. reflexivity.
  - intros H. split; [exact (Abs _ H) |]. intros Hin.
    rewrite (Abs _ H), bool_decide_eq_true_2 by exact Hin. rewrite delete_absent by exact H.
    reflexivity.
  - intros v H. unfold Api.present, Obj.lookup. rewrite H. reflexivity.
  - intros -> Hn. cbn [fst].
    assert (P : Api.present (Obj.delete id SETUPS) id = false).
    { rewrite Abs by (rewrite getOwn_delete, String.eqb_refl; reflexivity).
      apply bool_decide_eq_false_2. exact Hn. }
    rewrite P. reflexivity.
Qed.

(** Property X9.  A posted setup is stored under the key [setup_<time>] and
    answered; the other setups are untouched.  The stored object holds every
    property of the body, and its [id] is the key unless the body has an
    [id] of its own, which then replaces it.  Deleting the key restores the
    store it was posted to, when that held no such key. *)
Theorem post_setup_stores (now : N) (body SETUPS : Obj.t Api.JSON) :
  let id := Api.setupIdOf now in
  let r := Api.postSetup now body SETUPS in
  let setup := Api.withId id body in
  Obj.getOwn (fst r) id = Some (Api.JObj setup) /\
  snd r = Api.Json 200 (Api.JObj [("ok"%string, Api.JBool true); ("id"%string, Api.JStr id);
                                  ("setup"%string, Api.JObj setup)]) /\
  (forall k, k <> id -> Obj.getOwn (fst r) k = Obj.getOwn SETUPS k) /\
  Api.present (fst r) id = true /\
  (Obj.getOwn body "id" = None -> Obj.getOwn setup "id" = Some (Api.JStr id)) /\
  (List.NoDup (map fst body) ->
   forall k v, Obj.getOwn body k = Some v -> Obj.getOwn setup k = Some v) /\
  (Obj.getOwn SETUPS id = None -> Api.deleteSetup id (fst r) = (SETUPS, Api.ok)).
Proof.
  intros id r setup. unfold r, Api.postSetup. fold id. fold setup. cbn [fst snd].
  assert (Own : Obj.getOwn (Obj.set id (Api.JObj setup) SETUPS) id = Some (Api.JObj setup))
    by apply getOwn_set_eq.
  assert (Pr : Api.present (Obj.set id (Api.JObj setup) SETUPS) id = true).
  { unfold Api.present, Obj.lookup. rewrite Own. reflexivity. }
  destruct (post_setup_fields now body SETUPS) as (Fid & Fall).
  split; [exact Own |]. split; [reflexivity |].
  split; [intros k Hk; apply getOwn_set_ne; congruence |].
  split; [exact Pr |]. split; [exact Fid |]. split; [exact Fall |].
  intros H. unfold Api.deleteSetup. rewrite Pr, delete_set_absent by exact H. reflexivity.
Qed.

(** ** Facts about the setup lookup *)






(** ** Facts about the entry count *)



(** ** Facts about the ledger and the totals *)





(** The rows of the ledger are only ever appended to. *)
Lemma step_rows (st : State) (ev : Event) :
  map rowOf (entries (gw st)) `prefix_of` map rowOf (entries (gw (fst (step st ev)))).
Proof.
  destruct (step_effect st ev) as [| | it q E | cs1 cs2 | k F Hne | k sorted F];
    try reflexivity.
  - cbn [joinTask fst set_entrantsByUser entries set_entries]. rewrite map_app.
    apply prefix_app_r. reflexivity.
  - cbn [set_entries entries]. rewrite rows_assignFloats. reflexivity.
Qed.

Lemma steps_rows (evs : list Event) (st : State) :
  map rowOf (entries (gw st)) `prefix_of` map rowOf (entries (gw (steps st evs))).
Proof.
  revert st. induction evs as [| ev evs IH]; intros st; [reflexivity |].
  rewrite steps_cons. etransitivity; [apply step_rows | apply IH].
Qed.


(** ** Facts about the collection window *)

Lemma step_endAt (st : State) (ev : Event) : endAt (gw (fst (step st ev))) = endAt (gw st).
Proof.
  destruct (step_effect st ev) as [| | it q E | cs1 cs2 | k F Hne | k sorted F]; reflexivity.
Qed.

Lemma step_collecting (st : State) (ev : Event) :
  collecting (gw (fst (step st ev)))
  = collecting (gw st) && negb (closes (endAt (gw st)) ev).
Proof.
  destruct ev as [now | it | | cs1 cs2 | k pl]; cbn [step closes negb].
  - destruct (collecting (gw st)) eqn:C; cbn [andb]; [| cbn; exact C].
    destruct (endAt (gw st) <=? now); cbn; [reflexivity | exact C].
  - destruct (negb _); cbn; rewrite andb_true_r; reflexivity.
  - destruct (queue st); cbn; rewrite andb_true_r; reflexivity.
  - cbn. rewrite andb_true_r. reflexivity.
  - rewrite andb_true_r.
    destruct (running st !! k) as [[| | sorted] |]; [| | | reflexivity].
    + destruct (negb (reply pl)); [reflexivity |].
      destruct (seedsMissing (gw st)); reflexivity.
    + destruct (fetched pl); [reflexivity |].
      destruct (rankEntries_cases (gw st)) as [[_ ->] | [_ ->]]; reflexivity.
    + reflexivity.
Qed.

Lemma steps_endAt (evs : list Event) (st : State) : endAt (gw (steps st evs)) = endAt (gw st).
Proof.
  revert st. induction evs as [| ev evs IH]; intros st; [reflexivity |].
  rewrite steps_cons, IH. apply step_endAt.
Qed.

Lemma steps_collecting (evs : list Event) (st : State) :
  collecting (gw (steps st evs))
  = collecting (gw st) && negb (existsb (closes (endAt (gw st))) evs).
Proof.
  revert st. induction evs as [| ev evs IH]; intros st.
  - cbn. rewrite andb_true_r. reflexivity.
  - rewrite steps_cons, IH, step_collecting, step_endAt. cbn [existsb].
    rewrite negb_orb, andb_assoc. reflexivity.
Qed.

(** ** Facts about the runs under way *)




Lemma omap_cons {A B} (f : A -> option B) (x : A) (l : list A) :
  omap f (x :: l) = match f x with Some y => y :: omap f l | None => omap f l end.
Proof. reflexivity. Qed.




(** Property X13.  The rows of the ledger are only appended to: whatever the
    handlers do, the rows [(id, userId)] that the ledger holds stay where
    they are, in their order, and later rows come after them. *)
Theorem ledger_append_only (st : State) (evs : list Event) :
  map rowOf (entries (gw st)) `prefix_of` map rowOf (entries (gw (steps st evs))) /\
  (length (entries (gw st)) <= length (entries (gw (steps st evs))))%nat.
Proof.
  pose proof (steps_rows evs st) as H. split; [exact H |].
  apply prefix_length in H. rewrite !length_map in H. exact H.
Qed.

(** Property X14.  The collection window: [endAt] never changes, and a
    giveaway started with the end time [t] is collecting exactly until the
    first tick of the update interval at or after [t]; in any state, a
    collection that has closed stays closed. *)
Theorem collecting_until_first_tick (s : Setup) (seed : string) (t : Z) (evs : list Event) :
  let st := steps (initial s seed t) evs in
  endAt (gw st) = t /\
  collecting (gw st) = negb (existsb (closes t) evs) /\
  (forall st0 evs0, collecting (gw st0) = false -> collecting (gw (steps st0 evs0)) = false).
Proof.
  intros st. split; [apply (steps_endAt evs (initial s seed t)) |].
  split; [apply (steps_collecting evs (initial s seed t)) |].
  intros st0 evs0 H. rewrite steps_collecting, H. reflexivity.
Qed.



(** Property X16.  The final ranking is in descending order of the fairness
    values and its first element is the winner's row, when the floats of the
    rows that were ranked are still those of the run when it ends, that is
    when no other run has started in between. *)
Theorem finalFloats_descending (pl : Platform) (g g1 g2 : Giveaway) (sorted : list nat) :
  runStart pl g = (Ranked sorted, g1) ->
  take (length (entries g)) (entries g2) = entries g1 ->
  exists ff w e,
    finalFloats (runFinish sorted g2) = Some ff /\
    StronglySorted notBelow ff /\
    winner (runFinish sorted g2) = Some w /\ entries g2 !! w = Some e /\
    head ff = Some (finalFloat e).
Proof.
  intros Hs Ht. apply runStart_ranked in Hs as (-> & -> & Hne).
  cbn [set_entries entries] in Ht.
  set (store := assignFloats g) in *.
  assert (Len : length store = length (entries g)) by apply length_assignFloats.
  assert (Fl : forall i, (i < length store)%nat -> is_Some (pf store i)).
  { intros i Hi. apply pf_assignFloats_Some. rewrite <- Len. exact Hi. }
  pose proof (ranking_perm store) as P.
  pose proof (ranking_sorted store Fl) as S.
  assert (Look : forall i, (i < length store)%nat -> entries g2 !! i = store !! i).
  { intros i Hi. rewrite <- Ht. rewrite lookup_take_lt by lia. reflexivity. }
  assert (Dom : Forall (fun i => (i < length store)%nat) (ranking store)).
  { apply List.Forall_forall. intros i Hi. apply (Permutation_in i P) in Hi.
    apply in_seq in Hi. lia. }
  cbn [runFinish set_result finalFloats winner]. rewrite survivors_head.
  assert (E : omap (fun i => finalFloat <$> entries g2 !! i) (ranking store)
              = omap (fun i => finalFloat <$> store !! i) (ranking store)).
  { clear S P. induction Dom as [| i l Hi _ IH]; [reflexivity |].
    rewrite !omap_cons, (Look i Hi), IH. reflexivity. }
  rewrite E. clear E.
  assert (Srt : StronglySorted notBelow
                  (omap (fun i => finalFloat <$> store !! i) (ranking store))).
  { clear P. induction S as [| i l S IH Hi]; [constructor |].
    inversion Dom as [| ? ? Hd Hds]; subst.
    destruct (lookup_lt_is_Some_2 store i Hd) as [e He].
    rewrite omap_cons, He. cbn [fmap option_fmap option_map].
    constructor; [apply IH; exact Hds |].
    apply List.Forall_forall. intros f Hf. apply list_elem_of_In, list_elem_of_omap in Hf.
    destruct Hf as (j & Hj & Hfj). apply list_elem_of_In in Hj.
    rewrite List.Forall_forall in Hi. specialize (Hi j Hj).
    destruct (store !! j) as [e' |] eqn:He'; [| discriminate]. injection Hfj as <-.
    unfold ranksBefore, pf in Hi. rewrite He, He' in Hi. cbn in Hi.
    unfold notBelow, finalFloat. cbn [FinalFloat.pfFloat].
    destruct (pfFloat e) as [x |], (pfFloat e') as [y |]; try contradiction.
    exists x, y. split; [reflexivity |]. split; [reflexivity |].
    destruct Hi as [H | [H _]]; [apply Qlt_le_weak; exact H | rewrite H; apply Qle_refl]. }
  destruct (ranking store) as [| w rest] eqn:Er.
  { exfalso. apply Permutation_nil in P. rewrite Len in P.
    destruct (entries g); [congruence | discriminate]. }
  inversion Dom as [| ? ? Hd Hds]; subst.
  destruct (lookup_lt_is_Some_2 store w Hd) as [e He].
  exists (omap (fun i => finalFloat <$> store !! i) (w :: rest)), w, e.
  split; [reflexivity |]. split; [exact Srt |]. split; [reflexivity |].
  split; [rewrite (Look w Hd); exact He |].
  rewrite omap_cons, He. reflexivity.
Qed.

Lemma finalFloats_descending_witness :
  exists ff, finalFloats (gw finished) = Some ff /\ StronglySorted notBelow ff.
Proof.
  set (g := set_seeds "block" "creator" (gw (fst (step twoJoined (Tick 1000))))).
  destruct (finalFloats_descending platformUp g (snd (runStart platformUp g))
              (snd (runStart platformUp g)) [1; 0]%nat)
    as (ff & w & e & F & S & _); [vm_compute; reflexivity | vm_compute; reflexivity |].
  exists ff. split; [| exact S]. rewrite <- F. vm_compute. reflexivity.
Defined.

(** ** Facts about a second run *)

(** The floats depend on the seeds and on the positions only: assigning them
    again, to the rows that hold them already, changes nothing. *)
Lemma assignFloats_again (g g' : Giveaway) :
  serverSeed g' = serverSeed g -> clientSeed1 g' = clientSeed1 g ->
  clientSeed2 g' = clientSeed2 g -> entries g' = assignFloats g ->
  assignFloats g' = assignFloats g.
Proof.
  intros Hs H1 H2 He. apply list_eq. intros i.
  rewrite (lookup_assignFloats g'), He, Hs, H1, H2, (lookup_assignFloats g).
  destruct (entries g !! i); reflexivity.
Qed.

(** Property X17.  A run can be repeated: on the giveaway a run has left, a
    run with the same answers of the platform ends in the same way and
    leaves the giveaway as it is, with the same floats, the same final
    ranking and the same winner. *)
Theorem run_repeatable (pl : Platform) (g : Giveaway) :
  runBattleRoyale pl (snd (runBattleRoyale pl g)) = runBattleRoyale pl g.
Proof.
  unfold runBattleRoyale. rewrite (runStart_phases pl g).
  destruct (seedsMissing g) eqn:S; cbn [snd].
  { rewrite runStart_phases, S. reflexivity. }
  destruct (fetched pl) as [e |] eqn:F; cbn [snd].
  { rewrite runStart_phases, S, F. reflexivity. }
  destruct (rankEntries_cases g) as [[He ->] | [Hne ->]]; cbn [snd].
  { rewrite runStart_phases, S, F.
    destruct (rankEntries_cases g) as [[_ ->] | [Hne _]]; [reflexivity | congruence]. }
  set (store := assignFloats g).
  set (g1 := runFinish (ranking store) (set_entries store g)).
  assert (S1 : seedsMissing g1 = false) by exact S.
  assert (A : assignFloats g1 = store) by (apply assignFloats_again; reflexivity).
  rewrite runStart_phases, S1, F. unfold rankEntries. rewrite A.
  assert (L : (length (entries g1) =? 0)%nat = false).
  { change (entries g1) with store. unfold store. rewrite length_assignFloats.
    destruct (entries g); [congruence | reflexivity]. }
  rewrite L. reflexivity.
Qed.

(** ** Facts about what the rounds eliminate *)

Lemma playRounds_conserve (ps : list Q) (cur : list nat) :
  snd (playRounds ps cur) ++ concat (rev (map eliminated (fst (playRounds ps cur)))) = cur.
Proof.
  revert cur. induction ps as [| p ps IH]; intros cur; cbn [playRounds fst snd map rev].
  - cbn. apply app_nil_r.
  - rewrite concat_app, app_assoc, IH. cbn [concat]. rewrite app_nil_r.
    apply round_partition.
Qed.

Lemma finalPhase_conserve (cur : list nat) :
  snd (finalPhase cur) ++ concat (rev (map eliminated (fst (finalPhase cur)))) = cur.
Proof.
  apply (finalPhase_induction
           (fun cur r => snd r ++ concat (rev (map eliminated (fst r))) = cur)); clear cur.
  - intros cur _. cbn. apply app_nil_r.
  - intros cur _ IH. cbn [fst snd map rev].
    rewrite concat_app, app_assoc, IH. cbn [concat]. rewrite app_nil_r.
    apply pass_partition.
Qed.

Lemma finalPhase_count (cur : list nat) :
  (length (fst (finalPhase cur)) <= length cur - 1)%nat.
Proof.
  apply (finalPhase_induction (fun cur r => (length (fst r) <= length cur - 1)%nat)); clear cur.
  - intros cur _. cbn. lia.
  - intros cur H IH. cbn [fst length].
    pose proof (pass_counts cur H) as (_ & _ & B).
    rewrite <- length_app, pass_partition in B. lia.
Qed.

(** ** Facts about the preview frames *)

Lemma take_prefix {A} (a : nat) (l : list A) : take a l `prefix_of` l.
Proof. exists (drop a l). symmetry. apply take_drop. Qed.

Lemma take_prefix_le {A} (a b : nat) (l : list A) : (a <= b)%nat -> take a l `prefix_of` take b l.
Proof.
  intros H. replace a with (Nat.min a b) by lia. rewrite <- take_take. apply take_prefix.
Qed.

Lemma frac_range (u : nat) : (u < updates)%nat -> (0 <= frac u <= 1)%Q.
Proof.
  intros H. unfold updates in H.
  assert (C : (u = 0 \/ u = 1 \/ u = 2 \/ u = 3 \/ u = 4)%nat) by lia.
  destruct C as [-> | [-> | [-> | [-> | ->]]]]; split; apply closed_Qle; vm_compute; reflexivity.
Qed.

Lemma frac_last : frac 4 = 1%Q.
Proof. vm_compute. reflexivity. Qed.

(** A product with a factor of at most 1, rounded, exceeds the other factor
    by at most one rounding. *)
Lemma rnd_scaled_upper (x f : Q) :
  (0 <= x)%Q -> (0 <= f <= 1)%Q -> (Binary64.rnd (x * f) <= x * ulp_factor)%Q.
Proof.
  intros Hx [Hf0 Hf1].
  assert (P : (0 <= x * f)%Q) by (apply Qmult_le_0_compat; assumption).
  pose proof (rnd_upper _ P) as U. fold ulp_factor in U.
  assert (Hu : (0 <= ulp_factor)%Q) by (apply closed_Qle; vm_compute; reflexivity).
  apply (Qle_trans _ _ _ U).
  assert (H1 : (0 <= x * ulp_factor)%Q) by (apply Qmult_le_0_compat; assumption).
  assert (G : forall y, (0 <= y)%Q -> (y * f <= y)%Q) by (intros; nra).
  assert (E : (x * f * ulp_factor == x * ulp_factor * f)%Q) by ring.
  rewrite E. apply G, H1.
Qed.

Lemma Qfloor_add_le (a b : Q) (n : Z) :
  (a + b < inject_Z (n + 1))%Q -> Qfloor a + Qfloor b <= n.
Proof.
  intros H. pose proof (Qfloor_le a) as Ha. pose proof (Qfloor_le b) as Hb.
  assert (L : (inject_Z (Qfloor a + Qfloor b) < inject_Z (n + 1))%Q).
  { rewrite inject_Z_plus. lra. }
  rewrite <- Zlt_Qlt in L. lia.
Qed.

Lemma inject_Z_bound (z j : Z) :
  0 <= z < 2 ^ j -> 0 <= j ->
  (inject_Z z * ((2 ^ j + 1) # Z.to_pos (2 ^ j)) < inject_Z (z + 1))%Q.
Proof.
  intros H Hj. assert (P : 0 < 2 ^ j) by (apply Z.pow_pos_nonneg; lia).
  unfold Qlt, Qmult, inject_Z. cbn [Qnum Qden]. rewrite Pos.mul_1_l, Z2Pos.id by exact P. nia.
Qed.

(** The count a preview frame of a round takes off, and the count the round
    keeps, are together at most the number of entries. *)
Lemma preview_keep (p : Q) (n u : nat) :
  p ∈ rounds -> Z.of_nat n < 2 ^ 50 -> (u < updates)%nat ->
  Qfloor (Binary64.fmul (Binary64.fmul p (Binary64.of_nat n)) (frac u))
  + Qfloor (Binary64.fmul (Binary64.of_nat n) (Binary64.fsub 1 p)) <= Z.of_nat n.
Proof.
  intros Hp Hn Hu.
  rewrite of_nat_exact by (change (2 ^ 53) with (8 * 2 ^ 50); lia).
  set (N := inject_Z (Z.of_nat n)).
  assert (HN : (0 <= N)%Q) by (unfold N, Qle; cbn; lia).
  assert (Hu' : (0 <= ulp_factor)%Q) by (apply closed_Qle; vm_compute; reflexivity).
  apply Qfloor_add_le.
  eapply Qle_lt_trans; [| apply (inject_Z_bound (Z.of_nat n) 50); lia]. fold N.
  assert (Hconst : (0 <= p)%Q /\ (0 <= Binary64.fsub 1 p)%Q /\
                   (p * (ulp_factor * ulp_factor) + Binary64.fsub 1 p * ulp_factor
                    <= (2 ^ 50 + 1) # Z.to_pos (2 ^ 50))%Q).
  { unfold rounds in Hp. repeat (apply elem_of_cons in Hp as [-> | Hp]);
      [| | | apply elem_of_nil in Hp; contradiction];
      (split; [| split]; apply closed_Qle; vm_compute; reflexivity). }
  destruct Hconst as (Hp0 & Hq0 & Hc).
  generalize dependent (Binary64.fsub 1 p). intros q Hq0 Hc.
  assert (A1 : (Binary64.fmul p N <= p * N * ulp_factor)%Q).
  { unfold Binary64.fmul. pose proof (rnd_upper (p * N)) as U. fold ulp_factor in U.
    apply U. apply Qmult_le_0_compat; assumption. }
  assert (A0 : (0 <= Binary64.fmul p N)%Q).
  { unfold Binary64.fmul. apply rnd_nonneg, Qmult_le_0_compat; assumption. }
  assert (A2 : (Binary64.fmul (Binary64.fmul p N) (frac u)
                <= Binary64.fmul p N * ulp_factor)%Q).
  { unfold Binary64.fmul at 1. apply rnd_scaled_upper; [exact A0 | apply frac_range, Hu]. }
  assert (B1 : (Binary64.fmul N q <= N * q * ulp_factor)%Q).
  { unfold Binary64.fmul. pose proof (rnd_upper (N * q)) as U. fold ulp_factor in U.
    apply U. apply Qmult_le_0_compat; assumption. }
  generalize dependent (Binary64.fmul (Binary64.fmul p N) (frac u)). intros a A2.
  generalize dependent (Binary64.fmul p N). intros a1 A1 A0 A2.
  generalize dependent (Binary64.fmul N q). intros b B1.
  generalize dependent ((2 ^ 50 + 1) # Z.to_pos (2 ^ 50)). intros c Hc.
  generalize dependent ulp_factor. intros U HU Hc A1 A2 B1.
  nra.
Qed.

Lemma toEliminate_small (n : nat) : 1 <= toEliminate n <= Z.max 1 (Z.of_nat n - 1).
Proof.
  destruct n as [| [| n]]; [vm_compute; split; discriminate | vm_compute; split; discriminate |].
  pose proof (toEliminate_bounds (S (S n)) ltac:(lia)). lia.
Qed.

(** The count a preview frame of the final phase takes off is at most the
    count the pass eliminates, and is that count in the last frame. *)
Lemma previewFinal_count (t : Z) (u : nat) :
  1 <= t < 2 ^ 52 -> (u < updates)%nat ->
  Qfloor (Binary64.fmul (inject_Z t) (frac u)) <= t /\
  Qfloor (Binary64.fmul (inject_Z t) (frac 4)) = t.
Proof.
  intros Ht Hu. split.
  - assert (H : (Binary64.fmul (inject_Z t) (frac u) < inject_Z (t + 1))%Q).
    { eapply Qle_lt_trans; [| apply (inject_Z_bound t 52); lia].
      unfold Binary64.fmul. apply rnd_scaled_upper; [| apply frac_range, Hu].
      unfold Qle; cbn; lia. }
    pose proof (Qfloor_le (Binary64.fmul (inject_Z t) (frac u))) as F.
    pose proof (Qle_lt_trans _ _ _ F H) as L. rewrite <- Zlt_Qlt in L. lia.
  - rewrite frac_last. unfold Binary64.fmul, Qmult, inject_Z. cbn [Qnum Qden].
    rewrite Z.mul_1_r. change (t # 1 * 1) with (inject_Z t).
    rewrite rnd_integer_eq by (change (2 ^ 53) with (2 * 2 ^ 52); lia). apply Qfloor_Z.
Qed.

(** Property X18.  Every entry of the sorted array other than the winner is
    eliminated once, from the bottom of the ranking upwards: the survivors
    of the tournament, followed by what the rounds and passes eliminated,
    the last pass first, are the sorted array.  The final phase has fewer
    passes than the three rounds left entries. *)
Theorem eliminations_partition_ranking (sorted : list nat) :
  survivors sorted ++ concat (rev (map eliminated (allRounds sorted))) = sorted /\
  (length (finalPasses sorted) <= length (snd (playRounds rounds sorted)) - 1)%nat /\
  (length (allRounds sorted) <= 3 + (length sorted - 1))%nat.
Proof.
  pose proof (playRounds_conserve rounds sorted) as R.
  pose proof (finalPhase_conserve (snd (playRounds rounds sorted))) as F.
  pose proof (finalPhase_count (snd (playRounds rounds sorted))) as C.
  split; [| split].
  - unfold allRounds, finalPasses, survivors. rewrite map_app, rev_app_distr, concat_app.
    rewrite app_assoc, F. exact R.
  - exact C.
  - unfold allRounds, finalPasses. rewrite length_app.
    assert (L : (length (snd (playRounds rounds sorted)) <= length sorted)%nat).
    { apply prefix_length, playRounds_prefix. }
    change (length (fst (playRounds rounds sorted))) with 3%nat. lia.
Qed.

(** Property X19.  Every preview frame of a round or of a pass of the final
    phase shows a prefix of the current entries that holds all the entries
    the round or pass keeps; the last frame of a pass of the final phase
    shows exactly the entries the pass keeps.  The last frame of a round can
    show more: with 7 entries, the last frame of round 2 shows 5 and the
    round keeps 4. *)
Theorem previews_hold_survivors (cur : list nat) :
  Z.of_nat (length cur) < 2 ^ 50 ->
  (forall p, p ∈ rounds -> Forall (frame_ok cur (playRound p cur)) (preview (playRound p cur))) /\
  Forall (frame_ok cur (playFinalPass cur)) (preview (playFinalPass cur)) /\
  last (preview (playFinalPass cur)) = Some (remaining (playFinalPass cur)) /\
  length <$> last (preview (playRound (Binary64.lit (40 # 100)) (seq 0 7))) = Some 5%nat /\
  length (remaining (playRound (Binary64.lit (40 # 100)) (seq 0 7))) = 4%nat.
Proof.
  intros Hn.
  pose proof (toEliminate_small (length cur)) as Ht.
  assert (Ht' : 1 <= toEliminate (length cur) < 2 ^ 52).
  { change (2 ^ 52) with (4 * 2 ^ 50). lia. }
  split; [| split; [| split; [| split]]].
  - intros p Hp. cbn [playRound preview]. apply Forall_map, Forall_forall.
    intros u Hu%elem_of_seq. unfold frame_ok. cbn [playRound remaining].
    split; [| apply take_prefix]. unfold previewEntries. apply take_prefix_le.
    pose proof (preview_keep p (length cur) u Hp Hn ltac:(lia)) as K.
    unfold keepCount. lia.
  - cbn [playFinalPass preview]. apply Forall_map, Forall_forall.
    intros u Hu%elem_of_seq. unfold frame_ok. cbn [playFinalPass remaining].
    split; [| apply take_prefix]. unfold previewFinal. apply take_prefix_le.
    destruct (previewFinal_count _ u Ht' ltac:(lia)) as [K _].
    unfold finalKeepCount. lia.
  - cbn [playFinalPass preview remaining updates seq map last].
    unfold previewFinal. destruct (previewFinal_count _ 0 Ht' ltac:(unfold updates; lia)) as [_ ->].
    unfold finalKeepCount. f_equal. f_equal. lia.
  - vm_compute. reflexivity.
  - vm_compute. reflexivity.
Qed.

Lemma previews_hold_survivors_witness :
  Forall (frame_ok (seq 0 10) (playFinalPass (seq 0 10))) (preview (playFinalPass (seq 0 10))).
Proof.
  apply (previews_hold_survivors (seq 0 10)). vm_compute. reflexivity.
Defined.
